(** * Word-alignment corpus preprocessing and alignment metrics

    A shallow embedding of [metrics.py] and [preprocessing.py] and the
    properties of their functions.

    Conventions of the embedding:
    - a Python [int] is a [Z]; [len] yields a [Z] through [Z.of_nat];
    - a Python [tuple] of ints is a [list Z] (the annotations promise
      pairs, nothing in the code enforces the length);
    - a Python [set] of tuples is a [gset tuple], a [dict] from tokens to
      indices a [gmap string Z];
    - a raised exception is the [Raise] outcome of the [result] monad;
    - a Python [float] is the rational it denotes, every float operation
      being the exact operation followed by a rounding [fl]; the properties
      hold for every rounding with the laws of [FloatRounding], of which
      the rounding [binary64] to the nearest double is one;
    - the markup parser of the library is a parameter ([XMLParser]), and
      so is the built-in [int] on strings ([PyInt]), of which the
      behaviour on short strings of ASCII characters is given. *)

From Stdlib Require Import ZArith QArith Qround Qpower Lia Lqa Ascii String.
From stdpp Require Import base option list gmap strings sorting.

Close Scope Q_scope.
Open Scope Z_scope.

(** ** Exceptions *)

Inductive Exception : Type :=
  | ZeroDivisionError
  | IndexError
  | ValueError
  | ParseError.

Inductive result (A : Type) : Type :=
  | Ok (a : A)
  | Raise (e : Exception).
Arguments Ok {A} a.
Arguments Raise {A} e.

Definition rbind {A B : Type} (r : result A) (k : A → result B) : result B :=
  match r with
  | Ok a => k a
  | Raise e => Raise e
  end.

Notation "x ←? r ; k" := (rbind r (λ x, k))
  (at level 100, r at next level, right associativity,
   format "x  ←?  r ;  '/' k").

Definition raises {A : Type} (r : result A) : Prop :=
  match r with
  | Ok _ => False
  | Raise _ => True
  end.

(** ** Floats *)

(** Rounding of a real result to the float that represents it: it is
    monotone, and 0 and 1 are floats. *)
Class FloatRounding : Type := {
  fl : Q → Q;
  fl_mono : ∀ x y : Q, (x <= y)%Q → (fl x <= fl y)%Q;
  fl_zero : (fl 0 == 0)%Q;
  fl_one : (fl 1 == 1)%Q
}.

(** The floats of the binary64 format, as a rounding: 53 bits of
    precision, round to nearest, ties to even, gradual underflow below
    the exponent -1022; the overflow to infinity is left out. *)

Definition pow2 (e : Z) : Q := (2 ^ e)%Q.

(** The nearest integer, the even one of two that are equally near. *)
Definition round_half_even (x : Q) : Z :=
  let f := Qfloor x in
  match Qcompare (x - inject_Z f) (1 # 2) with
  | Lt => f
  | Gt => f + 1
  | Eq => if Z.even f then f else f + 1
  end.

(** The exponent [e] with [2^e <= x < 2^(e+1)], for a positive [x]. *)
Definition binade (x : Q) : Z :=
  let k := Z.log2 (Qnum x) - Z.log2 (Zpos (Qden x)) in
  if Qle_bool (pow2 k) x then k else k - 1.

(** The float nearest to a positive [x]: a multiple of [2^(e-52)]. *)
Definition round_pos (x : Q) : Q :=
  let e := Z.max (binade x) (-1022) in
  (inject_Z (round_half_even (x * pow2 (52 - e))) * pow2 (e - 52))%Q.

Definition binary64 (x : Q) : Q :=
  match Qcompare x 0 with
  | Eq => 0%Q
  | Gt => round_pos x
  | Lt => (- round_pos (- x))%Q
  end.

(** [a / b] on two ints: true division, [ZeroDivisionError] on a zero
    divisor.  (The [OverflowError] of a quotient beyond the float range is
    left out.) *)
Definition py_truediv `{FR : FloatRounding} (a b : Z) : result Q :=
  if decide (b = 0) then Raise ZeroDivisionError
  else Ok (fl (inject_Z a / inject_Z b)%Q).

(** [1 - x] on an int and a float. *)
Definition py_one_minus `{FR : FloatRounding} (x : Q) : Q := fl (1 - x)%Q.

(** ** Data model *)

Definition tuple : Type := list Z.

Record SentencePair : Type := mkSentencePair {
  source : list string;
  target : list string
}.

Record TokenizedSentencePair : Type := mkTokenizedSentencePair {
  source_tokens : list Z;
  target_tokens : list Z
}.

Record LabeledAlignment : Type := mkLabeledAlignment {
  sure : list tuple;
  possible : list tuple
}.

(** ** metrics.py *)

Definition len_set (s : gset tuple) : Z := Z.of_nat (size s).

(** One iteration of the loop of [compute_precision]; the state is
    [(numerator, denominator)]. *)
Definition precision_step (acc : Z * Z)
    (item : LabeledAlignment * list tuple) : Z * Z :=
  let '(numerator, denominator) := acc in
  let '(la, predicted_al) := item in
  let set_sure : gset tuple := list_to_set (sure la) in
  let set_possible : gset tuple := list_to_set (possible la) in
  let set_predicted : gset tuple := list_to_set predicted_al in
  let set_possible := set_possible ∪ set_sure in
  let denominator := denominator + len_set set_predicted in
  let numerator := numerator + len_set (set_possible ∩ set_predicted) in
  (numerator, denominator).

Definition compute_precision (reference : list LabeledAlignment)
    (predicted : list (list tuple)) : Z * Z :=
  foldl precision_step (0, 0) (zip reference predicted).

(** One iteration of the loop of [compute_recall]. *)
Definition recall_step (acc : Z * Z)
    (item : LabeledAlignment * list tuple) : Z * Z :=
  let '(numerator, denominator) := acc in
  let '(la, predicted_al) := item in
  let set_sure : gset tuple := list_to_set (sure la) in
  let set_predicted : gset tuple := list_to_set predicted_al in
  let denominator := denominator + len_set set_sure in
  let numerator := numerator + len_set (set_predicted ∩ set_sure) in
  (numerator, denominator).

Definition compute_recall (reference : list LabeledAlignment)
    (predicted : list (list tuple)) : Z * Z :=
  foldl recall_step (0, 0) (zip reference predicted).

Definition compute_aer `{FR : FloatRounding} (reference : list LabeledAlignment)
    (predicted : list (list tuple)) : result Q :=
  let '(pr_num, pr_den) := compute_precision reference predicted in
  let '(re_num, re_den) := compute_recall reference predicted in
  q ←? py_truediv (pr_num + re_num) (pr_den + re_den);
  Ok (py_one_minus q).

(** *** What the metrics are to compute, sentence by sentence

    The counts of the specification, on the lists themselves: the distinct
    tuples of a list are those of [remove_dups]. *)

Definition distinct (l : list tuple) : Z := Z.of_nat (length (remove_dups l)).

(** The distinct predicted tuples that are possible or sure. *)
Definition precision_hits (la : LabeledAlignment) (p : list tuple) : Z :=
  Z.of_nat (length (filter (λ a, a ∈ possible la ∨ a ∈ sure la) (remove_dups p))).

(** The distinct predicted tuples that are sure. *)
Definition recall_hits (la : LabeledAlignment) (p : list tuple) : Z :=
  Z.of_nat (length (filter (λ a, a ∈ sure la) (remove_dups p))).

Definition sumZ (l : list Z) : Z := foldr Z.add 0 l.


(** ** preprocessing.py: text primitives *)

(** [s.replace(old, new)] for a pattern [old] of one character. *)
Fixpoint str_replace (old : ascii) (new : string) (s : string) : string :=
  match s with
  | EmptyString => EmptyString
  | String c s' =>
      if Ascii.eqb c old then new +:+ str_replace old new s'
      else String c (str_replace old new s')
  end.

(** [s.split(sep)] for a separator of one character: one more piece than
    there are separators, empty pieces included. *)
Fixpoint str_split (sep : ascii) (s : string) : list string :=
  match s with
  | EmptyString => [EmptyString]
  | String c s' =>
      if Ascii.eqb c sep then EmptyString :: str_split sep s'
      else match str_split sep s' with
           | [] => [String c EmptyString]
           | w :: ws => String c w :: ws
           end
  end.

Definition code (c : ascii) : Z := Z.of_nat (nat_of_ascii c).

(** The whitespace that [int] strips from a string of ASCII characters:
    tab, line feed, vertical tab, form feed, carriage return and space. *)
Definition is_space (c : ascii) : bool :=
  ((9 <=? code c) && (code c <=? 13)) || (code c =? 32).

Definition digit_of (c : ascii) : option Z :=
  if (48 <=? code c) && (code c <=? 57) then Some (code c - 48) else None.

Fixpoint lstrip (s : string) : string :=
  match s with
  | EmptyString => EmptyString
  | String c s' => if is_space c then lstrip s' else s
  end.

Fixpoint rstrip (s : string) : string :=
  match s with
  | EmptyString => EmptyString
  | String c s' =>
      match rstrip s' with
      | EmptyString => if is_space c then EmptyString else String c EmptyString
      | r => String c r
      end
  end.

(** The digits of a decimal literal; single underscores are allowed
    between digits.  [after_digit] tells whether the previous character was
    a digit. *)
Fixpoint digits (s : string) (acc : Z) (after_digit : bool) : option Z :=
  match s with
  | EmptyString => if after_digit then Some acc else None
  | String c s' =>
      match digit_of c with
      | Some d => digits s' (10 * acc + d) true
      | None =>
          if Ascii.eqb c "_" && after_digit then digits s' acc false else None
      end
  end.

(** What [int] does on a short string of ASCII characters: surrounding
    whitespace, an optional sign, decimal digits; [ValueError] otherwise. *)
Definition int_ascii (s : string) : result Z :=
  let s := rstrip (lstrip s) in
  let parsed :=
    match s with
    | String "+" r => digits r 0 false
    | String "-" r => Z.opp <$> digits r 0 false
    | _ => digits s 0 false
    end in
  match parsed with
  | Some n => Ok n
  | None => Raise ValueError
  end.

Fixpoint is_ascii (s : string) : bool :=
  match s with
  | EmptyString => true
  | String c s' => (code c <? 128) && is_ascii s'
  end.

(** [sys.int_info.str_digits_check_threshold]: no interpreter limits the
    digits of a literal that has no more digits than this. *)
Definition str_digits_check_threshold : nat := 640.

(** The built-in [int] on a string (given by its UTF-8 bytes).  It raises
    nothing but [ValueError], and on a string of ASCII characters that is no
    longer than the threshold it is [int_ascii].  What it makes of other
    strings (digits and whitespace beyond ASCII, literals with more digits
    than the interpreter is set to convert) is left to the interpreter. *)
Class PyInt : Type := {
  py_int : string → result Z;
  py_int_raise : ∀ s e, py_int s = Raise e → e = ValueError;
  py_int_ascii : ∀ s,
    is_ascii s = true → (String.length s ≤ str_digits_check_threshold)%nat →
    py_int s = int_ascii s
}.

(** [[f(x) for x in l]], stopping at the first exception. *)
Fixpoint map_result {A B : Type} (f : A → result B) (l : list A) : result (list B) :=
  match l with
  | [] => Ok []
  | x :: l' =>
      y ←? f x;
      ys ←? map_result f l';
      Ok (y :: ys)
  end.

(** [tuple(map(int, s.split('-')))] *)
Definition parse_tuple `{PI : PyInt} (s : string) : result tuple :=
  map_result py_int (str_split "-" s).

(** ** preprocessing.py: extract_sentences *)

(** An element of the parsed markup: its text and its child elements. *)
#[warnings="-register-all"]
Inductive Element : Type :=
  | mkElement (text : option string) (children : list Element).

Definition text (e : Element) : option string :=
  match e with mkElement t _ => t end.

Definition children (e : Element) : list Element :=
  match e with mkElement _ cs => cs end.

(** [e[i]] *)
Definition getitem (e : Element) (i : nat) : result Element :=
  match children e !! i with
  | Some c => Ok c
  | None => Raise IndexError
  end.

(** The markup parser [ET.fromstring], a library function. *)
Class XMLParser : Type := { fromstring : string → result Element }.

(** [t.split(' ')] if the text is present, else the empty list. *)
Definition split_text (t : option string) : list string :=
  match t with
  | None => []
  | Some t => str_split " " t
  end.

(** The body of the loop over the blocks; the state is
    [(sentence_pair_list, labeled_alignment_list)]. *)
Definition extract_block `{PI : PyInt}
    (st : list SentencePair * list LabeledAlignment)
    (block : Element) : result (list SentencePair * list LabeledAlignment) :=
  let '(sentence_pair_list, labeled_alignment_list) := st in
  b0 ←? getitem block 0;
  let s1 := split_text (text b0) in
  b1 ←? getitem block 1;
  let s2 := split_text (text b1) in
  let sentence_pair_list := sentence_pair_list ++ [mkSentencePair s1 s2] in
  b2 ←? getitem block 2;
  let sure_list := split_text (text b2) in
  b3 ←? getitem block 3;
  let possible_list := split_text (text b3) in
  sure_list ←? map_result parse_tuple sure_list;
  possible_list ←? map_result parse_tuple possible_list;
  let labeled_alignment_list :=
    labeled_alignment_list ++ [mkLabeledAlignment sure_list possible_list] in
  Ok (sentence_pair_list, labeled_alignment_list).

Fixpoint extract_blocks `{PI : PyInt} (blocks : list Element)
    (st : list SentencePair * list LabeledAlignment)
    : result (list SentencePair * list LabeledAlignment) :=
  match blocks with
  | [] => Ok st
  | block :: rest =>
      st ←? extract_block st block;
      extract_blocks rest st
  end.

(** The escaping of the raw text before it is parsed. *)
Definition escape_text (all_text : string) : string :=
  str_replace "&" "&amp;" all_text.

(** [extract_sentences], from the text read from the file. *)
Definition extract_sentences `{XP : XMLParser} `{PI : PyInt} (all_text : string)
    : result (list SentencePair * list LabeledAlignment) :=
  let all_text := escape_text all_text in
  root ←? fromstring all_text;
  extract_blocks (children root) ([], []).

(** ** preprocessing.py: get_token_to_index *)

(** [if word not in d: d[word] = counter; counter += 1], on the pair of a
    dictionary and its counter. *)
Definition add_token (st : gmap string Z * Z) (word : string) : gmap string Z * Z :=
  let '(d, counter) := st in
  match d !! word with
  | None => (<[word := counter]> d, counter + 1)
  | Some _ => (d, counter)
  end.

(** The body of the loop without a cutoff; the state is
    [((source_dict, source_counter), (target_dict, target_counter))]. *)
Definition scan_pair (st : (gmap string Z * Z) * (gmap string Z * Z))
    (sp : SentencePair) : (gmap string Z * Z) * (gmap string Z * Z) :=
  let '(src, tgt) := st in
  let src := foldl add_token src (source sp) in
  let tgt := foldl add_token tgt (target sp) in
  (src, tgt).

(** A [Counter]: a dictionary from tokens to counts that keeps the order
    in which its keys were inserted. *)
Definition Counter : Type := list (string * Z).

(** [c[elem] += n]; a missing key counts as 0 and is inserted last. *)
Fixpoint counter_add (c : Counter) (elem : string) (n : Z) : Counter :=
  match c with
  | [] => [(elem, 0 + n)]
  | (k, v) :: c' =>
      if decide (k = elem) then (k, v + n) :: c'
      else (k, v) :: counter_add c' elem n
  end.

(** [Counter(iterable)] *)
Definition Counter_of (l : list string) : Counter :=
  foldl (λ c elem, counter_add c elem 1) [] l.

(** [c += other]: the counts are added, then the entries that are not
    positive are dropped. *)
Definition counter_iadd (c other : Counter) : Counter :=
  filter (λ kv, 0 < kv.2) (foldl (λ c kv, counter_add c kv.1 kv.2) c other).

(** Insertion into a list sorted by decreasing count, before the first
    entry whose count is not larger. *)
Fixpoint insert_by_count (x : string * Z) (l : list (string * Z)) : list (string * Z) :=
  match l with
  | [] => [x]
  | y :: l' => if x.2 <? y.2 then y :: insert_by_count x l' else x :: l
  end.

(** [c.most_common()]: [sorted(c.items(), key=itemgetter(1), reverse=True)],
    a stable sort: entries of equal count keep their order. *)
Definition most_common (c : Counter) : list (string * Z) :=
  foldr insert_by_count [] c.

(** [for index, token in enumerate(items): if index >= freq_cutoff: break;
    d[token[0]] = index], from position [index] on. *)
Fixpoint assign_indices (items : list (string * Z)) (index freq_cutoff : Z)
    (d : gmap string Z) : gmap string Z :=
  match items with
  | [] => d
  | token :: rest =>
      if freq_cutoff <=? index then d
      else assign_indices rest (index + 1) freq_cutoff (<[token.1 := index]> d)
  end.

Definition get_token_to_index (sentence_pairs : list SentencePair)
    (freq_cutoff : option Z) : gmap string Z * gmap string Z :=
  let source_dict : gmap string Z := ∅ in
  let target_dict : gmap string Z := ∅ in
  match freq_cutoff with
  | None =>
      let '((source_dict, _), (target_dict, _)) :=
        foldl scan_pair ((source_dict, 0), (target_dict, 0)) sentence_pairs in
      (source_dict, target_dict)
  | Some freq_cutoff =>
      let '(counter_source, counter_target) :=
        foldl (λ '(cs, ct) sp,
                 (counter_iadd cs (Counter_of (source sp)),
                  counter_iadd ct (Counter_of (target sp))))
              ([], []) sentence_pairs in
      let most_common_source := most_common counter_source in
      let most_common_target := most_common counter_target in
      (assign_indices most_common_source 0 freq_cutoff source_dict,
       assign_indices most_common_target 0 freq_cutoff target_dict)
  end.

(** ** preprocessing.py: tokenize_sents *)

(** One of the two inner loops: the array built so far and the flag, which
    is set when the loop breaks on a token that is not in the dictionary. *)
Fixpoint lookup_tokens (d : gmap string Z) (words : list string) (arr : list Z)
    : list Z * bool :=
  match words with
  | [] => (arr, false)
  | word :: rest =>
      match d !! word with
      | Some i => lookup_tokens d rest (arr ++ [i])
      | None => (arr, true)
      end
  end.

(** The body of the loop over the sentence pairs; the state is [res_list]. *)
Definition tokenize_pair (source_dict target_dict : gmap string Z)
    (res_list : list TokenizedSentencePair) (sp : SentencePair)
    : list TokenizedSentencePair :=
  let '(arr_source, flag) := lookup_tokens source_dict (source sp) [] in
  if flag then res_list else
  let '(arr_target, flag) := lookup_tokens target_dict (target sp) [] in
  if flag then res_list else
  res_list ++ [mkTokenizedSentencePair arr_source arr_target].

Definition tokenize_sents (sentence_pairs : list SentencePair)
    (source_dict target_dict : gmap string Z) : list TokenizedSentencePair :=
  foldl (tokenize_pair source_dict target_dict) [] sentence_pairs.

(** *** What the tokenizer is to compute *)

(** Every token of the sentence is a key of the dictionary. *)
Definition in_vocabulary (d : gmap string Z) (words : list string) : Prop :=
  Forall (λ w, is_Some (d !! w)) words.

Definition mappable (source_dict target_dict : gmap string Z) (sp : SentencePair) : Prop :=
  in_vocabulary source_dict (source sp) ∧ in_vocabulary target_dict (target sp).

#[local] Instance mappable_dec sd td sp : Decision (mappable sd td sp).
Proof. unfold mappable, in_vocabulary. apply _. Defined.

(** The index sequence [idx] is the token sequence [words] mapped through
    the dictionary, token by token. *)
Definition encodes (d : gmap string Z) (words : list string) (idx : list Z) : Prop :=
  Forall2 (λ w i, d !! w = Some i) words idx.

Definition encodes_pair (source_dict target_dict : gmap string Z)
    (sp : SentencePair) (tp : TokenizedSentencePair) : Prop :=
  encodes source_dict (source sp) (source_tokens tp) ∧
  encodes target_dict (target sp) (target_tokens tp).

(** *** What the vocabulary builder is to compute *)

(** The indices of the dictionary are exactly the numbers from 0 up to
    [c], each one the index of one token only. *)
Definition indexed_upto (d : gmap string Z) (c : Z) : Prop :=
  c = Z.of_nat (size d) ∧
  (∀ w i, d !! w = Some i → 0 ≤ i < c) ∧
  (∀ i, 0 ≤ i < c → ∃ w, d !! w = Some i) ∧
  (∀ w1 w2 i, d !! w1 = Some i → d !! w2 = Some i → w1 = w2).

(** Unique indices, contiguous from 0. *)
Definition contiguous_indices (d : gmap string Z) : Prop :=
  indexed_upto d (Z.of_nat (size d)).

(** The keys are the tokens of the scan, and the index of a token is the
    number of distinct tokens that the scan meets before its first
    occurrence. *)
Definition first_occurrence_order (tokens : list string) (d : gmap string Z) : Prop :=
  (∀ w, is_Some (d !! w) ↔ w ∈ tokens) ∧
  (∀ pre w post, tokens = pre ++ w :: post → w ∉ pre →
     d !! w = Some (Z.of_nat (length (remove_dups pre)))).

(** The source tokens and the target tokens of a corpus, in the order of
    the scan. *)
Definition source_scan (sentence_pairs : list SentencePair) : list string :=
  concat (source <$> sentence_pairs).

Definition target_scan (sentence_pairs : list SentencePair) : list string :=
  concat (target <$> sentence_pairs).

(** *** What stops the parser *)

Fixpoint count_char (c : ascii) (s : string) : nat :=
  match s with
  | EmptyString => O
  | String c' s' => (if Ascii.eqb c' c then 1 else 0) + count_char c s'
  end.

(** The text of the [i]-th field of a block, if there is such a field and
    it has a text. *)
Definition field_text (block : Element) (i : nat) : option string :=
  children block !! i ≫= text.

(** The tokens of the two alignment fields of a block. *)
Definition alignment_tokens (block : Element) : list string :=
  split_text (field_text block 2) ++ split_text (field_text block 3).

(** A token with a hyphen-separated piece on which [int] raises. *)
Definition bad_token `{PI : PyInt} (token : string) : Prop :=
  Exists (λ piece, raises (py_int piece)) (str_split "-" token).

(** A block with fewer than four fields, or with an alignment token that
    has a piece on which [int] raises. *)
Definition malformed_block `{PI : PyInt} (block : Element) : Prop :=
  (length (children block) < 4)%nat ∨ Exists bad_token (alignment_tokens block).

#[local] Instance raises_dec {A : Type} (r : result A) : Decision (raises r).
Proof. destruct r; simpl; apply _. Defined.

#[local] Instance bad_token_dec `{PI : PyInt} token : Decision (bad_token token).
Proof. unfold bad_token. apply _. Defined.

#[local] Instance malformed_block_dec `{PI : PyInt} block :
  Decision (malformed_block block).
Proof. unfold malformed_block. apply _. Defined.

(** ** Sample inputs *)

(** One sentence, every predicted tuple possible and the sure one found. *)
Definition example_gold : list LabeledAlignment :=
  [mkLabeledAlignment [[1; 1]] [[1; 1]; [2; 2]]].

Definition example_predicted : list (list tuple) := [[[1; 1]; [2; 2]]].

(** One sentence with precision 1/3 and recall 1/1. *)
Definition skewed_gold : list LabeledAlignment :=
  [mkLabeledAlignment [[1; 1]] [[1; 1]]].

Definition skewed_predicted : list (list tuple) := [[[1; 1]; [2; 2]; [3; 3]]].

(** A second predicted sentence with no gold counterpart. *)
Definition longer_predicted : list (list tuple) :=
  [[[1; 1]; [2; 2]]; [[5; 5]; [6; 6]; [7; 7]]].

(** A corpus of two sentence pairs. *)
Definition small_corpus : list SentencePair :=
  [mkSentencePair ["a"; "b"; "a"] ["x"];
   mkSentencePair ["b"; "c"; "b"] ["y"; "x"]]%string.

(** A parser given by its answers on finitely many texts. *)
Definition table_parser (table : list (string * Element)) : XMLParser :=
  {| fromstring := λ s,
       match list_find (λ entry, entry.1 = s) table with
       | Some (_, (_, root)) => Ok root
       | None => Raise ParseError
       end |}.

Definition leaf (t : option string) : Element := mkElement t [].

Definition corpus_of (blocks : list (list (option string))) : Element :=
  mkElement None ((λ fields, mkElement None (leaf <$> fields)) <$> blocks).

(** A corpus whose only block has a sure token with one position and a
    possible token with three. *)
Definition odd_pairs_text : string :=
  "<sentences><s><english>a b</english><czech>c</czech><sure>7</sure><possible>1-2-3</possible></s></sentences>".

Definition odd_pairs_root : Element :=
  corpus_of [[Some "a b"; Some "c"; Some "7"; Some "1-2-3"]]%string.

(** A corpus whose second block has a position that is no integer. *)
Definition bad_position_text : string :=
  "<sentences><s><english>a</english><czech>c</czech><sure>1-1</sure><possible/></s><s><english>b</english><czech>d</czech><sure>1-x</sure><possible/></s></sentences>".

Definition bad_position_root : Element :=
  corpus_of [[Some "a"; Some "c"; Some "1-1"; None];
             [Some "b"; Some "d"; Some "1-x"; None]]%string.

(** A corpus whose only block lacks the field of the possible pairs. *)
Definition short_block_text : string :=
  "<sentences><s><english>a</english><czech>c</czech><sure>1-1</sure></s></sentences>".

Definition short_block_root : Element :=
  corpus_of [[Some "a"; Some "c"; Some "1-1"]]%string.

Definition sample_parser : XMLParser :=
  table_parser [(odd_pairs_text, odd_pairs_root);
                (bad_position_text, bad_position_root);
                (short_block_text, short_block_root)].

(** ** Further notions *)

(** The indices of a sentence, if every one of its tokens is a key. *)
Definition encode_words (d : gmap string Z) (words : list string) : option (list Z) :=
  mapM (λ w, d !! w) words.

(** The tokenized pair of a sentence pair, if both sides can be mapped. *)
Definition encode_pair (source_dict target_dict : gmap string Z)
    (sp : SentencePair) : option TokenizedSentencePair :=
  arr_source ← encode_words source_dict (source sp);
  arr_target ← encode_words target_dict (target sp);
  Some (mkTokenizedSentencePair arr_source arr_target).

(** The number of occurrences of a token in a scan. *)
Definition occurrences (w : string) (tokens : list string) : Z :=
  Z.of_nat (length (filter (λ w', w' = w) tokens)).

(** [c[w]]: the count of a key, 0 for what is no key. *)
Definition counter_get (c : list (string * Z)) (w : string) : Z :=
  sumZ (snd <$> filter (λ kv, kv.1 = w) c).

(** Every count of the counter is positive. *)
Definition positive_counts (c : list (string * Z)) : Prop := Forall (λ kv, 0 < kv.2) c.

(** The distinct tokens of a scan in the order in which they are first
    met. *)
Definition first_seen_step (acc : list string) (w : string) : list string :=
  if decide (w ∈ acc) then acc else acc ++ [w].

Definition first_seen (tokens : list string) : list string :=
  foldl first_seen_step [] tokens.

(** [sep.join(pieces)] for a separator of one character. *)
Fixpoint str_join (sep : ascii) (pieces : list string) : string :=
  match pieces with
  | [] => EmptyString
  | [piece] => piece
  | piece :: rest => piece +:+ String sep (str_join sep rest)
  end.

(** The tokens [words] of a sentence field with the text [t]: none for an
    absent text; else one more than there are spaces, none of them with a
    space, and joined by spaces they are the text. *)
Definition tokens_of_text (t : option string) (words : list string) : Prop :=
  match t with
  | None => words = []
  | Some t =>
      str_join " " words = t ∧
      Forall (λ w, count_char " " w = O) words ∧
      length words = S (count_char " " t)
  end.

(** A run of one or more decimal digits. *)
Fixpoint digit_run (s : string) : bool :=
  match s with
  | EmptyString => false
  | String c EmptyString => bool_decide (is_Some (digit_of c))
  | String c s' => bool_decide (is_Some (digit_of c)) && digit_run s'
  end.

(** * Properties *)

(** ** Sets of tuples and their sizes *)

Section sets.
Implicit Types (l p : list tuple) (X : gset tuple).

Lemma len_set_list_to_set l : len_set (list_to_set l) = distinct l.
Proof.
  unfold len_set, distinct. f_equal.
  rewrite <- (size_list_to_set (C := gset tuple) (remove_dups l))
    by apply NoDup_remove_dups.
  f_equal. apply set_eq. intros a.
  by rewrite !elem_of_list_to_set, elem_of_remove_dups.
Qed.

(** The size of an intersection with the set of a list counts the
    distinct elements of the list that are in the other set. *)
Lemma len_set_inter_list X p (P : tuple → Prop) `{!∀ a, Decision (P a)} :
  (∀ a, a ∈ X ↔ P a) →
  len_set (X ∩ list_to_set p) = Z.of_nat (length (filter P (remove_dups p))).
Proof.
  intros HX. unfold len_set. f_equal.
  rewrite <- (size_list_to_set (C := gset tuple) (filter P (remove_dups p)))
    by apply NoDup_filter, NoDup_remove_dups.
  f_equal. apply set_eq. intros a.
  rewrite elem_of_intersection, !elem_of_list_to_set, list_elem_of_filter,
    elem_of_remove_dups, HX.
  tauto.
Qed.

Lemma precision_num_sentence la p :
  len_set ((list_to_set (possible la) ∪ list_to_set (sure la)) ∩ list_to_set p)
  = precision_hits la p.
Proof.
  apply len_set_inter_list. intros a.
  by rewrite elem_of_union, !elem_of_list_to_set.
Qed.

Lemma recall_num_sentence la p :
  len_set (list_to_set p ∩ list_to_set (sure la)) = recall_hits la p.
Proof.
  rewrite (intersection_comm_L (list_to_set p)).
  apply len_set_inter_list. intros a. by rewrite elem_of_list_to_set.
Qed.

Lemma precision_hits_bounds la p : 0 ≤ precision_hits la p ≤ distinct p.
Proof.
  unfold precision_hits, distinct.
  pose proof (length_filter (λ a, a ∈ possible la ∨ a ∈ sure la) (remove_dups p)).
  lia.
Qed.

Lemma recall_hits_bounds la p : 0 ≤ recall_hits la p ≤ distinct (sure la).
Proof.
  split; [unfold recall_hits; lia|].
  rewrite <- recall_num_sentence, <- len_set_list_to_set.
  unfold len_set. apply inj_le, subseteq_size, intersection_subseteq_r.
Qed.
End sets.

(** ** The loops of the metrics as sums over the paired sentences *)

Lemma precision_loop reference predicted n d :
  foldl precision_step (n, d) (zip reference predicted)
  = (n + sumZ (zip_with precision_hits reference predicted),
     d + sumZ (zip_with (λ _ p, distinct p) reference predicted)).
Proof.
  revert predicted n d.
  induction reference as [|la reference IH]; intros [|p predicted] n d; simpl;
    try (f_equal; lia).
  rewrite IH, precision_num_sentence, len_set_list_to_set.
  f_equal; lia.
Qed.

Lemma recall_loop reference predicted n d :
  foldl recall_step (n, d) (zip reference predicted)
  = (n + sumZ (zip_with recall_hits reference predicted),
     d + sumZ (zip_with (λ la _, distinct (sure la)) reference predicted)).
Proof.
  revert predicted n d.
  induction reference as [|la reference IH]; intros [|p predicted] n d; simpl;
    try (f_equal; lia).
  rewrite IH, recall_num_sentence, len_set_list_to_set.
  f_equal; lia.
Qed.

Lemma compute_precision_sums reference predicted :
  compute_precision reference predicted
  = (sumZ (zip_with precision_hits reference predicted),
     sumZ (zip_with (λ _ p, distinct p) reference predicted)).
Proof. unfold compute_precision. by rewrite precision_loop. Qed.

Lemma compute_recall_sums reference predicted :
  compute_recall reference predicted
  = (sumZ (zip_with recall_hits reference predicted),
     sumZ (zip_with (λ la _, distinct (sure la)) reference predicted)).
Proof. unfold compute_recall. by rewrite recall_loop. Qed.

Lemma zip_with_snd_all {A B C} (f : B → C) (l : list A) (k : list B) :
  length l = length k → zip_with (λ _ y, f y) l k = f <$> k.
Proof.
  revert k. induction l as [|x l IH]; intros [|y k] Hlen; simplify_eq/=; [done|].
  by rewrite IH.
Qed.

Lemma zip_with_fst_all {A B C} (f : A → C) (l : list A) (k : list B) :
  length l = length k → zip_with (λ x _, f x) l k = f <$> l.
Proof.
  revert k. induction l as [|x l IH]; intros [|y k] Hlen; simplify_eq/=; [done|].
  by rewrite IH.
Qed.

Lemma zip_take_min {A B} (l : list A) (k : list B) :
  zip l k = zip (take (length l `min` length k) l) (take (length l `min` length k) k).
Proof.
  revert k. induction l as [|x l IH]; intros [|y k]; simpl; [done..|].
  by rewrite <- IH.
Qed.

Lemma sum_hits_le {A B} (f g : A → B → Z) (l : list A) (k : list B) :
  (∀ x y, 0 ≤ f x y ≤ g x y) →
  0 ≤ sumZ (zip_with f l k) ≤ sumZ (zip_with g l k).
Proof.
  intros Hfg. revert k.
  induction l as [|x l IH]; intros [|y k]; simpl; try lia.
  specialize (IH k). specialize (Hfg x y). lia.
Qed.

(** ** Rounding to the nearest float *)

Lemma round_half_even_floor (x : Q) :
  Qfloor x <= round_half_even x <= Qfloor x + 1.
Proof.
  unfold round_half_even.
  destruct (Qcompare (x - inject_Z (Qfloor x)) (1 # 2)); [destruct (Z.even _)|..]; lia.
Qed.

Lemma round_half_even_mono (x y : Q) :
  (x <= y)%Q -> round_half_even x <= round_half_even y.
Proof.
  intros Hxy. pose proof (Qfloor_resp_le x y Hxy) as Hf.
  pose proof (round_half_even_floor x) as Hx.
  pose proof (round_half_even_floor y) as Hy.
  destruct (Z.eq_dec (Qfloor x) (Qfloor y)) as [Heq|Hne]; [|lia].
  unfold round_half_even in *. rewrite <- Heq in *.
  destruct (Qcompare_spec (x - inject_Z (Qfloor x)) (1 # 2)) as [Hx'|Hx'|Hx'];
  destruct (Qcompare_spec (y - inject_Z (Qfloor x)) (1 # 2)) as [Hy'|Hy'|Hy'];
    try destruct (Z.even (Qfloor x)); try lia; exfalso; lra.
Qed.

Lemma round_half_even_Z (n : Z) : round_half_even (inject_Z n) = n.
Proof.
  unfold round_half_even. rewrite Qfloor_Z.
  destruct (Qcompare_spec (inject_Z n - inject_Z n) (1 # 2)) as [H|H|H]; [exfalso; lra|lia|exfalso; lra].
Qed.

Lemma pow2_pos e : (0 < pow2 e)%Q.
Proof. apply Qpower_0_lt. reflexivity. Qed.

Lemma pow2_add a b : (pow2 (a + b) == pow2 a * pow2 b)%Q.
Proof. apply Qpower_plus. discriminate. Qed.

Lemma pow2_Z n : 0 <= n -> (pow2 n == inject_Z (2 ^ n))%Q.
Proof. intros Hn. symmetry. apply (Zpower_Qpower 2 n Hn). Qed.

Lemma pow2_le a b : a <= b -> (pow2 a <= pow2 b)%Q.
Proof. intros Hab. apply Qpower_le_compat_l; [done|discriminate]. Qed.

Lemma pow2_lt_inv a b : (pow2 a < pow2 b)%Q -> a < b.
Proof. intros Hab. eapply Qpower_lt_compat_l_inv; [exact Hab|reflexivity]. Qed.

Lemma binade_spec (x : Q) :
  (0 < x)%Q -> (pow2 (binade x) <= x < pow2 (binade x + 1))%Q.
Proof.
  intros Hx. destruct x as [n d]. unfold binade. cbn [Qnum Qden].
  assert (0 < n) as Hn by (unfold Qlt in Hx; simpl in Hx; lia).
  pose proof (Z.log2_spec n Hn) as [Ha1 Ha2].
  pose proof (Z.log2_spec (Zpos d) (Pos2Z.is_pos d)) as [Hb1 Hb2].
  pose proof (Z.log2_nonneg n) as Ha0.
  pose proof (Z.log2_nonneg (Zpos d)) as Hb0.
  set (a := Z.log2 n) in *. set (b := Z.log2 (Zpos d)) in *.
  assert (inject_Z (Zpos d) * (n # d) == inject_Z n)%Q as Hnd.
  { unfold Qeq. simpl. lia. }
  assert (0 < inject_Z (Zpos d))%Q as Hd by (unfold Qlt; simpl; lia).
  (* strict bounds around the quotient of the two powers *)
  assert (n # d < pow2 (a - b + 1))%Q as Hupper.
  { apply (Qmult_lt_l _ _ (inject_Z (Zpos d)) Hd). rewrite Hnd.
    apply Qlt_le_trans with (inject_Z (2 ^ (a + 1))).
    - rewrite <- Zlt_Qlt. unfold Z.succ in Ha2. lia.
    - rewrite <- pow2_Z by lia.
      replace (a + 1) with (b + (a - b + 1)) by lia. rewrite pow2_add.
      apply Qmult_le_compat_r; [|apply Qlt_le_weak, pow2_pos].
      rewrite pow2_Z by lia. rewrite <- Zle_Qle. lia. }
  assert (pow2 (a - b - 1) < n # d)%Q as Hlower.
  { apply (Qmult_lt_l _ _ (inject_Z (Zpos d)) Hd). rewrite Hnd.
    apply Qlt_le_trans with (inject_Z (2 ^ a)).
    - rewrite <- pow2_Z by lia.
      replace a with ((b + 1) + (a - b - 1)) at 2 by lia. rewrite pow2_add.
      apply Qmult_lt_compat_r; [apply pow2_pos|].
      rewrite pow2_Z by lia. rewrite <- Zlt_Qlt. unfold Z.succ in Hb2. lia.
    - rewrite <- Zle_Qle. lia. }
  destruct (Qle_bool (pow2 (a - b)) (n # d)) eqn:Hk.
  - apply Qle_bool_iff in Hk. split; [done|]. exact Hupper.
  - split; [apply Qlt_le_weak; exact Hlower|].
    replace (a - b - 1 + 1) with (a - b) by lia.
    apply Qnot_le_lt. intros Hle. apply Qle_bool_iff in Hle. congruence.
Qed.

Lemma binade_mono (x y : Q) : (0 < x)%Q -> (x <= y)%Q -> binade x <= binade y.
Proof.
  intros Hx Hxy.
  destruct (binade_spec x Hx) as [Hx1 _].
  destruct (binade_spec y) as [_ Hy2]; [lra|].
  assert (binade x < binade y + 1); [|lia].
  apply pow2_lt_inv. lra.
Qed.

Lemma pow2_split a b : (pow2 a == pow2 b * pow2 (a - b))%Q.
Proof. rewrite <- pow2_add. by replace (b + (a - b)) with a by lia. Qed.

Lemma round_pos_upper (x : Q) e :
  (0 < x)%Q -> binade x <= e ->
  (inject_Z (round_half_even (x * pow2 (52 - e))) * pow2 (e - 52) <= pow2 (e + 1))%Q.
Proof.
  intros Hx He. destruct (binade_spec x Hx) as [_ Hupper].
  pose proof (pow2_le (binade x + 1) (e + 1) ltac:(lia)) as Hle.
  pose proof (pow2_pos (52 - e)) as Hs. pose proof (pow2_pos (e - 52)) as Hs'.
  assert (x * pow2 (52 - e) <= inject_Z (2 ^ 53))%Q as Hscaled.
  { rewrite <- pow2_Z by lia. rewrite (pow2_split 53 (e + 1)).
    replace (53 - (e + 1)) with (52 - e) by lia.
    apply Qmult_le_compat_r; lra. }
  apply round_half_even_mono in Hscaled. rewrite round_half_even_Z in Hscaled.
  rewrite (pow2_split (e + 1) 53). replace (e + 1 - 53) with (e - 52) by lia.
  apply Qmult_le_compat_r; [|lra].
  rewrite (pow2_Z 53) by lia. by rewrite <- Zle_Qle.
Qed.

Lemma round_pos_lower (x : Q) e :
  (pow2 e <= x)%Q ->
  (pow2 e <= inject_Z (round_half_even (x * pow2 (52 - e))) * pow2 (e - 52))%Q.
Proof.
  intros Hx.
  pose proof (pow2_pos (52 - e)) as Hs. pose proof (pow2_pos (e - 52)) as Hs'.
  assert (inject_Z (2 ^ 52) <= x * pow2 (52 - e))%Q as Hscaled.
  { rewrite <- pow2_Z by lia. rewrite (pow2_split 52 e).
    apply Qmult_le_compat_r; lra. }
  apply round_half_even_mono in Hscaled. rewrite round_half_even_Z in Hscaled.
  rewrite (pow2_split e 52) at 1.
  apply Qmult_le_compat_r; [|lra].
  rewrite (pow2_Z 52) by lia. by rewrite <- Zle_Qle.
Qed.

Lemma round_pos_nonneg (x : Q) : (0 < x)%Q -> (0 <= round_pos x)%Q.
Proof.
  intros Hx. unfold round_pos.
  set (e := Z.max (binade x) (-1022)).
  pose proof (pow2_pos (52 - e)) as Hs. pose proof (pow2_pos (e - 52)) as Hs'.
  apply Qmult_le_0_compat; [|lra].
  assert (0 <= x * pow2 (52 - e))%Q as Hscaled by (apply Qmult_le_0_compat; lra).
  apply round_half_even_mono in Hscaled.
  change 0%Q with (inject_Z 0) in Hscaled. rewrite round_half_even_Z in Hscaled.
  change 0%Q with (inject_Z 0). by rewrite <- Zle_Qle.
Qed.

Lemma round_pos_mono (x y : Q) :
  (0 < x)%Q -> (x <= y)%Q -> (round_pos x <= round_pos y)%Q.
Proof.
  intros Hx Hxy. pose proof (binade_mono x y Hx Hxy) as Hb. unfold round_pos.
  set (ex := Z.max (binade x) (-1022)). set (ey := Z.max (binade y) (-1022)).
  destruct (Z.eq_dec ex ey) as [Heq|Hne].
  - rewrite Heq. pose proof (pow2_pos (52 - ey)). pose proof (pow2_pos (ey - 52)).
    apply Qmult_le_compat_r; [|lra]. rewrite <- Zle_Qle.
    apply round_half_even_mono, Qmult_le_compat_r; lra.
  - assert (ex < ey ∧ ey = binade y) as [Hlt Hey] by lia.
    apply Qle_trans with (pow2 (ex + 1)); [apply round_pos_upper; [done|lia]|].
    apply Qle_trans with (pow2 ey); [apply pow2_le; lia|].
    apply round_pos_lower. rewrite Hey. apply binade_spec. lra.
Qed.

Lemma binary64_mono (x y : Q) : (x <= y)%Q -> (binary64 x <= binary64 y)%Q.
Proof.
  intros Hxy. unfold binary64.
  destruct (Qcompare_spec x 0) as [Hx|Hx|Hx];
  destruct (Qcompare_spec y 0) as [Hy|Hy|Hy]; try lra.
  - apply round_pos_nonneg. lra.
  - pose proof (round_pos_nonneg (- x)). lra.
  - pose proof (round_pos_mono (- y) (- x)). lra.
  - pose proof (round_pos_nonneg (- x)). pose proof (round_pos_nonneg y). lra.
  - by apply round_pos_mono.
Qed.

Lemma binary64_0 : (binary64 0 == 0)%Q.
Proof. reflexivity. Qed.

Lemma binary64_1 : (binary64 1 == 1)%Q.
Proof. vm_compute. reflexivity. Qed.

(** Rounding to binary64 is a rounding in the sense of [FloatRounding]. *)
Lemma binary64_rounding : FloatRounding.
Proof.
  exact {| fl := binary64; fl_mono := binary64_mono;
           fl_zero := binary64_0; fl_one := binary64_1 |}.
Defined.

(** The floats nearest to 1/10 and 1/3, and two ties. *)
Example binary64_samples :
  (binary64 (1 # 10) == 3602879701896397 # 2 ^ 55)%Q ∧
  (binary64 (1 # 3) == 6004799503160661 # 2 ^ 54)%Q ∧
  (binary64 (inject_Z (2 ^ 53 + 1)) == inject_Z (2 ^ 53))%Q ∧
  (binary64 (inject_Z (2 ^ 53 + 3)) == inject_Z (2 ^ 53 + 4))%Q ∧
  (binary64 (- (3 # 4)) == - (3 # 4))%Q.
Proof. repeat split; vm_compute; reflexivity. Qed.

(** ** Rounded quotients of counts *)

Section rounding.
Context `{FR : FloatRounding}.

Lemma fl_proper (x y : Q) : (x == y)%Q → (fl x == fl y)%Q.
Proof.
  intros Hxy. apply Qle_antisym; apply fl_mono; rewrite Hxy; apply Qle_refl.
Qed.

Lemma fl_unit_interval (x : Q) : (0 <= x <= 1)%Q → (0 <= fl x <= 1)%Q.
Proof.
  intros [H0 H1]. split.
  - rewrite <- fl_zero. by apply fl_mono.
  - rewrite <- fl_one. by apply fl_mono.
Qed.

Lemma quotient_unit_interval (n d : Z) :
  0 ≤ n ≤ d → d ≠ 0 → (0 <= inject_Z n / inject_Z d <= 1)%Q.
Proof.
  intros Hnd Hd.
  assert (0 < inject_Z d)%Q as Hpos by (unfold Qlt; simpl; lia).
  split.
  - apply Qle_shift_div_l; [done|]. rewrite Qmult_0_l.
    unfold Qle; simpl; lia.
  - apply Qle_shift_div_r; [done|]. rewrite Qmult_1_l.
    unfold Qle; simpl; lia.
Qed.

Lemma one_minus_unit_interval (x : Q) : (0 <= x <= 1)%Q → (0 <= 1 - x <= 1)%Q.
Proof.
  intros [H0 H1]. unfold Qle in *. destruct x as [a b]. simpl in *. lia.
Qed.
End rounding.

(** ** The metrics *)

Lemma compute_aer_unfold `{FR : FloatRounding} reference predicted :
  compute_aer reference predicted
  = (q ←? py_truediv
            ((compute_precision reference predicted).1 + (compute_recall reference predicted).1)
            ((compute_precision reference predicted).2 + (compute_recall reference predicted).2);
     Ok (py_one_minus q)).
Proof.
  unfold compute_aer.
  by destruct (compute_precision reference predicted), (compute_recall reference predicted).
Qed.

(** When every sentence has its counterpart, the denominators are sums over
    one sequence alone. *)
Lemma precision_equal_lengths reference predicted :
  length reference = length predicted →
  compute_precision reference predicted
  = (sumZ (zip_with precision_hits reference predicted),
     sumZ (distinct <$> predicted)).
Proof.
  intros Hlen. rewrite compute_precision_sums.
  by rewrite (zip_with_snd_all distinct) by done.
Qed.

Lemma recall_equal_lengths reference predicted :
  length reference = length predicted →
  compute_recall reference predicted
  = (sumZ (zip_with recall_hits reference predicted),
     sumZ ((λ la, distinct (sure la)) <$> reference)).
Proof.
  intros Hlen. rewrite compute_recall_sums.
  by rewrite (zip_with_fst_all (λ la, distinct (sure la))) by done.
Qed.

(** C2: on sequences of equal length, [compute_precision] returns the sum
    over the sentences of the number of distinct predicted tuples that are
    possible or sure, and the sum over the sentences of the number of
    distinct predicted tuples.  The sure tuples count whether or not they
    are among the possible ones, and a tuple that is predicted twice in a
    sentence counts once. *)
Theorem compute_precision_correct reference predicted :
  length reference = length predicted →
  compute_precision reference predicted
  = (sumZ (zip_with precision_hits reference predicted),
     sumZ (distinct <$> predicted)).
Proof. apply precision_equal_lengths. Qed.

Lemma compute_precision_correct_witness :
  length example_gold = length example_predicted ∧
  compute_precision example_gold example_predicted = (2, 2).
Proof.
  split; [reflexivity|].
  exact (compute_precision_correct example_gold example_predicted eq_refl).
Defined.

(** C3: on sequences of equal length, [compute_recall] returns the sum over
    the sentences of the number of distinct predicted tuples that are sure,
    and the sum over the sentences of the number of distinct sure tuples. *)
Theorem compute_recall_correct reference predicted :
  length reference = length predicted →
  compute_recall reference predicted
  = (sumZ (zip_with recall_hits reference predicted),
     sumZ ((λ la, distinct (sure la)) <$> reference)).
Proof. apply recall_equal_lengths. Qed.

Lemma compute_recall_correct_witness :
  length example_gold = length example_predicted ∧
  compute_recall example_gold example_predicted = (1, 1).
Proof.
  split; [reflexivity|].
  exact (compute_recall_correct example_gold example_predicted eq_refl).
Defined.

(** C1: on sequences of equal length whose combined denominator is not
    zero, [compute_aer] returns one minus the quotient of the sum of the
    two numerators by the sum of the two denominators, the counts being
    added before the single division; on the sample of the specification
    the result is 0. *)
Theorem compute_aer_formula `{FR : FloatRounding} :
  (∀ reference predicted,
     length reference = length predicted →
     let pr_num := sumZ (zip_with precision_hits reference predicted) in
     let pr_den := sumZ (distinct <$> predicted) in
     let re_num := sumZ (zip_with recall_hits reference predicted) in
     let re_den := sumZ ((λ la, distinct (sure la)) <$> reference) in
     pr_den + re_den ≠ 0 →
     compute_aer reference predicted
     = Ok (fl (1 - fl (inject_Z (pr_num + re_num) / inject_Z (pr_den + re_den)))%Q))
  ∧ (∃ aer, compute_aer example_gold example_predicted = Ok aer ∧ (aer == 0)%Q).
Proof.
  split.
  - intros reference predicted Hlen pr_num pr_den re_num re_den Hden.
    rewrite compute_aer_unfold, precision_equal_lengths, recall_equal_lengths by done.
    simpl. fold pr_num pr_den re_num re_den. unfold py_truediv.
    by rewrite decide_False by done.
  - eexists. split; [reflexivity|].
    change (fl (1 - fl (inject_Z 3 / inject_Z 3)) == 0)%Q.
    rewrite <- fl_zero. apply fl_proper.
    rewrite (fl_proper (inject_Z 3 / inject_Z 3) 1) by reflexivity.
    rewrite fl_one. reflexivity.
Qed.

Lemma compute_aer_formula_witness :
  length example_gold = length example_predicted ∧
  compute_aer (FR := binary64_rounding) example_gold example_predicted
  = Ok (binary64 (1 - binary64 (inject_Z (2 + 1) / inject_Z (2 + 1))))%Q.
Proof.
  split; [reflexivity|].
  apply (proj1 (compute_aer_formula (FR := binary64_rounding))
           example_gold example_predicted); [reflexivity|].
  vm_compute. discriminate.
Defined.

(** The error rate is not the mean of the two ratios: a sentence of
    precision 1/3 and recall 1/1 has the error rate 1/2, not
    1 - (1/3 + 1/1) / 2, in floats as in exact arithmetic. *)
Lemma compute_aer_not_mean_of_ratios :
  ∃ aer, compute_aer (FR := binary64_rounding) skewed_gold skewed_predicted = Ok aer ∧
    (aer == 1 # 2)%Q ∧
    ¬ (aer == binary64 (1 - binary64 (binary64 (binary64 (1 # 3) + binary64 (1 # 1)) / 2)))%Q.
Proof.
  eexists. split; [reflexivity|]. split; [vm_compute; reflexivity|].
  intros Heq. vm_compute in Heq. discriminate.
Qed.

(** C4: when the two denominators add up to zero, [compute_aer] raises
    [ZeroDivisionError]; it returns no number. *)
Theorem compute_aer_zero_denominator `{FR : FloatRounding} reference predicted :
  (compute_precision reference predicted).2
  + (compute_recall reference predicted).2 = 0 →
  compute_aer reference predicted = Raise ZeroDivisionError ∧
  ∀ aer, compute_aer reference predicted ≠ Ok aer.
Proof.
  intros Hden. rewrite compute_aer_unfold. unfold py_truediv.
  rewrite decide_True by done. simpl. split; [done|discriminate].
Qed.

Lemma compute_aer_zero_denominator_witness :
  compute_aer (FR := binary64_rounding) [mkLabeledAlignment [] [[1; 1]]] [[]]
  = Raise ZeroDivisionError.
Proof.
  apply (compute_aer_zero_denominator (FR := binary64_rounding)
           [mkLabeledAlignment [] [[1; 1]]] [[]]).
  reflexivity.
Defined.

(** C5: the numerator of [compute_precision] is at most its denominator,
    the numerator of [compute_recall] is at most its denominator, and when
    the two denominators do not add up to zero [compute_aer] returns a
    value between 0 and 1. *)
Theorem metrics_bounded `{FR : FloatRounding} reference predicted :
  0 ≤ (compute_precision reference predicted).1
    ≤ (compute_precision reference predicted).2 ∧
  0 ≤ (compute_recall reference predicted).1
    ≤ (compute_recall reference predicted).2 ∧
  ((compute_precision reference predicted).2
   + (compute_recall reference predicted).2 ≠ 0 →
   ∃ aer, compute_aer reference predicted = Ok aer ∧ (0 <= aer <= 1)%Q).
Proof.
  assert (0 ≤ (compute_precision reference predicted).1
            ≤ (compute_precision reference predicted).2) as Hp.
  { rewrite compute_precision_sums. simpl.
    apply sum_hits_le, precision_hits_bounds. }
  assert (0 ≤ (compute_recall reference predicted).1
            ≤ (compute_recall reference predicted).2) as Hr.
  { rewrite compute_recall_sums. simpl.
    apply (sum_hits_le recall_hits (λ la _, distinct (sure la))).
    intros la p. apply recall_hits_bounds. }
  split; [done|]. split; [done|].
  intros Hden. rewrite compute_aer_unfold. unfold py_truediv.
  rewrite decide_False by done. simpl. eexists. split; [done|].
  unfold py_one_minus.
  apply fl_unit_interval, one_minus_unit_interval, fl_unit_interval,
    quotient_unit_interval; [lia|done].
Qed.

Lemma metrics_bounded_witness :
  ∃ aer, compute_aer (FR := binary64_rounding) skewed_gold skewed_predicted = Ok aer ∧
    (0 <= aer <= 1)%Q.
Proof.
  apply (metrics_bounded (FR := binary64_rounding) skewed_gold skewed_predicted).
  vm_compute. discriminate.
Defined.

(** C10, as the code has it: when the two sequences differ in length, the
    entries of the longer one beyond the length of the shorter one are
    ignored: the three metrics are those of the two sequences cut to the
    shorter length, and precision and recall are the sums over the paired
    sentences.  The difference in length is no error of its own, but
    [compute_aer] raises [ZeroDivisionError] when the denominators of the
    paired sentences add up to zero, as they do when one of the sequences
    is empty; otherwise it returns a number. *)
Theorem unequal_lengths_truncated `{FR : FloatRounding} reference predicted :
  let n := (length reference `min` length predicted)%nat in
  compute_precision reference predicted
    = compute_precision (take n reference) (take n predicted) ∧
  compute_recall reference predicted
    = compute_recall (take n reference) (take n predicted) ∧
  compute_aer reference predicted
    = compute_aer (take n reference) (take n predicted) ∧
  compute_precision reference predicted
    = (sumZ (zip_with precision_hits (take n reference) (take n predicted)),
       sumZ (distinct <$> take n predicted)) ∧
  compute_recall reference predicted
    = (sumZ (zip_with recall_hits (take n reference) (take n predicted)),
       sumZ ((λ la, distinct (sure la)) <$> take n reference)) ∧
  (sumZ (distinct <$> take n predicted)
   + sumZ ((λ la, distinct (sure la)) <$> take n reference) ≠ 0 →
   ∃ aer, compute_aer reference predicted = Ok aer) ∧
  (sumZ (distinct <$> take n predicted)
   + sumZ ((λ la, distinct (sure la)) <$> take n reference) = 0 →
   compute_aer reference predicted = Raise ZeroDivisionError).
Proof.
  intros n.
  assert (compute_precision reference predicted
          = compute_precision (take n reference) (take n predicted)) as Hp.
  { unfold compute_precision. by rewrite (zip_take_min reference predicted). }
  assert (compute_recall reference predicted
          = compute_recall (take n reference) (take n predicted)) as Hr.
  { unfold compute_recall. by rewrite (zip_take_min reference predicted). }
  assert (length (take n reference) = length (take n predicted)) as Hlen.
  { rewrite !length_take. lia. }
  split; [done|]. split; [done|]. split.
  { by rewrite !compute_aer_unfold, Hp, Hr. }
  split; [by rewrite Hp, precision_equal_lengths|].
  split; [by rewrite Hr, recall_equal_lengths|].
  split; intros Hden; rewrite compute_aer_unfold, Hp, Hr;
    rewrite precision_equal_lengths, recall_equal_lengths by done;
    simpl; unfold py_truediv.
  - rewrite decide_False by done. simpl. by eexists.
  - by rewrite decide_True by done.
Qed.

Lemma unequal_lengths_truncated_witness :
  length example_gold ≠ length longer_predicted ∧
  ∃ aer, compute_aer (FR := binary64_rounding) example_gold longer_predicted = Ok aer.
Proof.
  split; [vm_compute; discriminate|].
  apply (unequal_lengths_truncated (FR := binary64_rounding)
           example_gold longer_predicted).
  vm_compute. discriminate.
Defined.

(** With a prediction for no sentence at all nothing is paired, and
    [compute_aer] raises. *)
Lemma unequal_lengths_can_raise :
  length example_gold ≠ length (@nil (list tuple)) ∧
  compute_precision example_gold [] = (0, 0) ∧
  compute_recall example_gold [] = (0, 0) ∧
  compute_aer (FR := binary64_rounding) example_gold []
  = Raise ZeroDivisionError.
Proof. repeat split; vm_compute; (discriminate || reflexivity). Qed.

(** ** The vocabulary builder *)

Section vocabulary.
Implicit Types (d : gmap string Z) (c i : Z) (w word : string) (l : list string).

Lemma indexed_upto_empty : indexed_upto (∅ : gmap string Z) 0.
Proof.
  split; [by rewrite map_size_empty|].
  split; [by intros w i; rewrite lookup_empty|].
  split; [lia|]. intros w1 w2 i. by rewrite lookup_empty.
Qed.

(** A fresh token that takes the next index keeps the indices contiguous. *)
Lemma indexed_upto_insert d c w :
  indexed_upto d c → d !! w = None → indexed_upto (<[w := c]> d) (c + 1).
Proof.
  intros (Hsize & Hrange & Hall & Hinj) Hfresh.
  split; [rewrite map_size_insert_None by done; lia|].
  split; [|split].
  - intros w' i. rewrite lookup_insert. case_decide; intros Hl; simplify_eq.
    + pose proof (Nat2Z.is_nonneg (size d)). lia.
    + apply Hrange in Hl. lia.
  - intros i Hi. destruct (decide (i = c)) as [->|Hne].
    + exists w. by rewrite lookup_insert_eq.
    + destruct (Hall i) as [w' Hw']; [lia|].
      exists w'. rewrite lookup_insert_ne; [done|]. congruence.
  - intros w1 w2 i. rewrite !lookup_insert.
    repeat case_decide; intros H1 H2; simplify_eq; try done.
    + apply Hrange in H2. lia.
    + apply Hrange in H1. lia.
    + by eapply Hinj.
Qed.

Lemma indexed_upto_contiguous d c : indexed_upto d c → contiguous_indices d.
Proof.
  intros Hd. unfold contiguous_indices. pose proof Hd as [Hc _]. by rewrite <- Hc.
Qed.

Lemma add_token_indexed d c word :
  indexed_upto d c → indexed_upto (add_token (d, c) word).1 (add_token (d, c) word).2.
Proof.
  intros Hd. unfold add_token. destruct (d !! word) eqn:Hw; simpl; [done|].
  by apply indexed_upto_insert.
Qed.

Lemma add_token_lookup d c word w :
  is_Some ((add_token (d, c) word).1 !! w) ↔ is_Some (d !! w) ∨ w = word.
Proof.
  unfold add_token. destruct (d !! word) eqn:Hw; simpl.
  - split; [tauto|]. intros [?| ->]; [done|]. by rewrite Hw.
  - rewrite lookup_insert_is_Some'. split; intros [?|?]; auto.
Qed.

Lemma add_token_keeps d c word w i :
  d !! w = Some i → (add_token (d, c) word).1 !! w = Some i.
Proof.
  intros Hw. unfold add_token. destruct (d !! word) eqn:Hword; simpl; [done|].
  rewrite lookup_insert_ne; [done|]. congruence.
Qed.

Lemma add_tokens_indexed l d c :
  indexed_upto d c →
  indexed_upto (foldl add_token (d, c) l).1 (foldl add_token (d, c) l).2.
Proof.
  revert d c. induction l as [|word l IH]; intros d c Hd; cbn [foldl]; [done|].
  pose proof (add_token_indexed d c word Hd) as Hstep.
  destruct (add_token (d, c) word) as [d' c']. by apply IH.
Qed.

Lemma add_tokens_lookup l d c w :
  is_Some ((foldl add_token (d, c) l).1 !! w) ↔ is_Some (d !! w) ∨ w ∈ l.
Proof.
  revert d c. induction l as [|word l IH]; intros d c; cbn [foldl].
  - rewrite elem_of_nil. tauto.
  - pose proof (add_token_lookup d c word w) as Hstep.
    destruct (add_token (d, c) word) as [d' c']. rewrite IH, elem_of_cons.
    simpl in Hstep. tauto.
Qed.

Lemma add_tokens_keep l d c w i :
  d !! w = Some i → (foldl add_token (d, c) l).1 !! w = Some i.
Proof.
  revert d c. induction l as [|word l IH]; intros d c Hw; cbn [foldl]; [done|].
  pose proof (add_token_keeps d c word w i Hw) as Hstep.
  destruct (add_token (d, c) word) as [d' c']. by apply IH.
Qed.

(** The number of entries after a scan from the empty dictionary is the
    number of distinct tokens of the scan. *)
Lemma add_tokens_size l :
  (foldl add_token (∅, 0) l).2 = Z.of_nat (length (remove_dups l)).
Proof.
  destruct (add_tokens_indexed l ∅ 0 indexed_upto_empty) as [-> _].
  f_equal. rewrite <- size_dom.
  rewrite <- (size_list_to_set (C := gset string) (remove_dups l))
    by apply NoDup_remove_dups.
  f_equal. apply set_eq. intros w.
  rewrite elem_of_dom, add_tokens_lookup, lookup_empty, elem_of_list_to_set,
    elem_of_remove_dups.
  split; [intros [[? ?]|?]|]; by eauto.
Qed.

Lemma add_tokens_first_occurrence l :
  first_occurrence_order l (foldl add_token (∅, 0) l).1.
Proof.
  split.
  - intros w. rewrite add_tokens_lookup, lookup_empty.
    split; [intros [[? ?]|?]|]; by eauto.
  - intros pre w post -> Hfresh.
    rewrite foldl_app. cbn [foldl].
    pose proof (add_tokens_size pre) as Hsize.
    pose proof (add_tokens_lookup pre ∅ 0 w) as Hdom.
    destruct (foldl add_token (∅, 0) pre) as [d1 c1]. cbn [fst snd] in Hsize, Hdom.
    assert (d1 !! w = None) as Hnone.
    { apply eq_None_not_Some. rewrite Hdom, lookup_empty.
      intros [[? ?]|?]; done. }
    assert (add_token (d1, c1) w = (<[w := c1]> d1, c1 + 1)) as ->.
    { unfold add_token. by rewrite Hnone. }
    apply add_tokens_keep. by rewrite lookup_insert_eq, Hsize.
Qed.

(** The two dictionaries are built independently of each other. *)
Lemma scan_pairs_split sps (src tgt : gmap string Z * Z) :
  foldl scan_pair (src, tgt) sps
  = (foldl add_token src (source_scan sps), foldl add_token tgt (target_scan sps)).
Proof.
  revert src tgt. induction sps as [|sp sps IH]; intros src tgt; simpl; [done|].
  unfold source_scan, target_scan in *. simpl. by rewrite IH, !foldl_app.
Qed.
End vocabulary.

(** ** Counters and the frequency cutoff *)

Section counters.
Implicit Types (c other : Counter) (d : gmap string Z) (w elem : string).

Lemma counter_add_keys c elem n :
  (counter_add c elem n).*1 = if decide (elem ∈ c.*1) then c.*1 else c.*1 ++ [elem].
Proof.
  induction c as [|[k v] c IH].
  - destruct (decide (elem ∈ ([] : Counter).*1)) as [Hin|_]; [|done].
    by apply elem_of_nil in Hin.
  - cbn [counter_add]. rewrite !fmap_cons. cbn [fst].
    destruct (decide (k = elem)) as [->|Hne].
    + by rewrite decide_True by apply list_elem_of_here.
    + rewrite fmap_cons, IH. cbn [fst].
      destruct (decide (elem ∈ c.*1)) as [Hin|Hnin].
      * by rewrite decide_True by by apply list_elem_of_further.
      * rewrite decide_False; [done|].
        rewrite elem_of_cons. intros [?|?]; congruence.
Qed.

Lemma counter_add_NoDup c elem n : NoDup c.*1 → NoDup (counter_add c elem n).*1.
Proof.
  intros Hc. rewrite counter_add_keys. case_decide; [done|].
  apply NoDup_app. split; [done|]. split; [|apply NoDup_singleton].
  intros x Hx ->%list_elem_of_singleton. done.
Qed.

Lemma counter_add_elem c elem n w :
  w ∈ (counter_add c elem n).*1 ↔ w ∈ c.*1 ∨ w = elem.
Proof.
  rewrite counter_add_keys. case_decide.
  - split; [tauto|]. by intros [?| ->].
  - by rewrite elem_of_app, list_elem_of_singleton.
Qed.

Lemma Counter_of_elem (l : list string) w : w ∈ (Counter_of l).*1 → w ∈ l.
Proof.
  unfold Counter_of.
  assert (∀ c, w ∈ (foldl (λ c elem, counter_add c elem 1) c l).*1 → w ∈ c.*1 ∨ w ∈ l)
    as Hgen.
  { induction l as [|x l IH]; intros c; simpl; [tauto|].
    intros [Hin|Hin]%IH; [|by right; right].
    apply counter_add_elem in Hin as [?| ->]; [by left|right; left]. }
  intros [Hin|Hin]%Hgen; [|done]. by apply elem_of_nil in Hin.
Qed.

Lemma counter_iadd_NoDup c other : NoDup c.*1 → NoDup (counter_iadd c other).*1.
Proof.
  intros Hc. unfold counter_iadd.
  eapply sublist_NoDup; [|apply fmap_sublist, sublist_filter].
  revert c Hc. induction other as [|[k v] other IH]; intros c Hc; simpl; [done|].
  by apply IH, counter_add_NoDup.
Qed.

Lemma counter_iadd_elem c other w :
  w ∈ (counter_iadd c other).*1 → w ∈ c.*1 ∨ w ∈ other.*1.
Proof.
  unfold counter_iadd. intros Hin.
  assert (w ∈ (foldl (λ c kv, counter_add c kv.1 kv.2) c other).*1) as Hin'.
  { eapply elem_of_sublist; [done|]. apply fmap_sublist, sublist_filter. }
  clear Hin. revert c Hin'.
  induction other as [|[k v] other IH]; intros c; simpl; [tauto|].
  intros [Hin|Hin]%IH; [|by right; right].
  apply counter_add_elem in Hin as [?| ->]; [by left|right; left].
Qed.

(** The loop that counts the tokens of one side of the corpus. *)
Lemma count_loop_keys (f : SentencePair → list string) sps c :
  NoDup c.*1 →
  NoDup (foldl (λ c sp, counter_iadd c (Counter_of (f sp))) c sps).*1 ∧
  ∀ w, w ∈ (foldl (λ c sp, counter_iadd c (Counter_of (f sp))) c sps).*1 →
       w ∈ c.*1 ∨ w ∈ concat (f <$> sps).
Proof.
  revert c. induction sps as [|sp sps IH]; intros c Hc; simpl; [by auto|].
  destruct (IH (counter_iadd c (Counter_of (f sp)))) as [Hnd Hin];
    [by apply counter_iadd_NoDup|].
  split; [done|]. intros w [Hw|Hw]%Hin.
  - apply counter_iadd_elem in Hw as [?|Hw]; [by left|].
    right. apply elem_of_app. left. by apply Counter_of_elem.
  - right. apply elem_of_app. by right.
Qed.

Lemma count_loops_split sps (cs ct : Counter) :
  foldl (λ '(cs, ct) sp,
           (counter_iadd cs (Counter_of (source sp)),
            counter_iadd ct (Counter_of (target sp)))) (cs, ct) sps
  = (foldl (λ c sp, counter_iadd c (Counter_of (source sp))) cs sps,
     foldl (λ c sp, counter_iadd c (Counter_of (target sp))) ct sps).
Proof. revert cs ct. induction sps as [|sp sps IH]; intros cs ct; simpl; auto. Qed.

Lemma insert_by_count_perm x (l : list (string * Z)) : insert_by_count x l ≡ₚ x :: l.
Proof.
  induction l as [|y l IH]; simpl; [done|].
  destruct (x.2 <? y.2); [|done]. rewrite IH. apply Permutation_swap.
Qed.

Lemma most_common_perm c : most_common c ≡ₚ c.
Proof.
  unfold most_common. induction c as [|x c IH]; simpl; [done|].
  by rewrite insert_by_count_perm, IH.
Qed.

(** The entries of [most_common] come by decreasing count. *)
Lemma most_common_sorted c :
  Sorted (λ x y : string * Z, y.2 ≤ x.2) (most_common c).
Proof.
  unfold most_common. induction c as [|x c IH]; simpl; [constructor|].
  generalize dependent (foldr insert_by_count [] c). intros l Hl.
  induction Hl as [|y l Hl IHl Hhd]; simpl; [by repeat constructor|].
  destruct (x.2 <? y.2) eqn:Hlt.
  - constructor; [done|]. destruct Hhd as [|z l' Hz]; simpl.
    + constructor. lia.
    + destruct (x.2 <? z.2); constructor; [done|lia].
  - constructor; [by constructor|]. constructor. lia.
Qed.

(** The indices given out under a cutoff: fresh keys take the indices from
    [index] on, below the cutoff. *)
Lemma assign_indices_indexed (items : list (string * Z)) index freq_cutoff d :
  NoDup items.*1 →
  (∀ w, w ∈ items.*1 → d !! w = None) →
  indexed_upto d index →
  ∃ top, indexed_upto (assign_indices items index freq_cutoff d) top ∧
         index ≤ top ≤ Z.max index freq_cutoff.
Proof.
  revert index d. induction items as [|[k v] items IH]; intros index d Hnd Hfresh Hd; simpl.
  - exists index. split; [done|lia].
  - destruct (freq_cutoff <=? index) eqn:Hcut.
    + exists index. split; [done|lia].
    + simpl in Hnd. apply NoDup_cons in Hnd as [Hk Hnd].
      destruct (IH (index + 1) (<[k := index]> d)) as (top & Htop & Hle).
      * done.
      * intros w Hw. rewrite lookup_insert_ne; [|by intros ->].
        apply Hfresh. simpl. by apply list_elem_of_further.
      * apply indexed_upto_insert; [done|]. apply Hfresh. simpl. apply list_elem_of_here.
      * exists top. split; [done|lia].
Qed.

Lemma assign_indices_keys (items : list (string * Z)) index freq_cutoff d w :
  is_Some (assign_indices items index freq_cutoff d !! w) →
  is_Some (d !! w) ∨ w ∈ items.*1.
Proof.
  revert index d. induction items as [|[k v] items IH]; intros index d; simpl; [by auto|].
  destruct (freq_cutoff <=? index); [by auto|].
  intros [Hw|Hw]%IH.
  - apply lookup_insert_is_Some' in Hw as [->|?]; [right; apply list_elem_of_here|by left].
  - right. by apply list_elem_of_further.
Qed.
End counters.

(** One side of the corpus under a cutoff. *)
Lemma cutoff_side (f : SentencePair → list string) sps (freq_cutoff : Z) :
  let d := assign_indices
             (most_common (foldl (λ c sp, counter_iadd c (Counter_of (f sp))) [] sps))
             0 freq_cutoff ∅ in
  contiguous_indices d ∧
  (∀ w i, d !! w = Some i → 0 ≤ i < freq_cutoff ∧ w ∈ concat (f <$> sps)) ∧
  (0 ≤ freq_cutoff → Z.of_nat (size d) ≤ freq_cutoff).
Proof.
  intros d.
  destruct (count_loop_keys f sps [] (NoDup_nil_2 : NoDup ([] : Counter).*1))
    as [Hnd Hkeys].
  set (counter := foldl (λ c sp, counter_iadd c (Counter_of (f sp))) [] sps) in *.
  assert ((most_common counter).*1 ≡ₚ counter.*1) as Hperm
    by (by rewrite most_common_perm).
  destruct (assign_indices_indexed (most_common counter) 0 freq_cutoff ∅)
    as (top & Htop & Hle).
  { by rewrite Hperm. }
  { intros w _. apply lookup_empty. }
  { apply indexed_upto_empty. }
  fold d in Htop. split; [by eapply indexed_upto_contiguous|].
  pose proof Htop as (Hsize & Hrange & _). split.
  - intros w i Hw. split; [apply Hrange in Hw; lia|].
    destruct (assign_indices_keys (most_common counter) 0 freq_cutoff ∅ w) as [Hin|Hin].
    + by exists i.
    + rewrite lookup_empty in Hin. by destruct Hin.
    + rewrite Hperm in Hin. apply Hkeys in Hin as [Hin|Hin]; [|done].
      by apply elem_of_nil in Hin.
  - lia.
Qed.

(** The two dictionaries made without a cutoff. *)
Lemma vocabulary_without_cutoff sentence_pairs :
  let source_dict := (get_token_to_index sentence_pairs None).1 in
  let target_dict := (get_token_to_index sentence_pairs None).2 in
  contiguous_indices source_dict ∧ contiguous_indices target_dict ∧
  first_occurrence_order (source_scan sentence_pairs) source_dict ∧
  first_occurrence_order (target_scan sentence_pairs) target_dict.
Proof.
  unfold get_token_to_index. rewrite scan_pairs_split.
  pose proof (add_tokens_indexed (source_scan sentence_pairs) ∅ 0 indexed_upto_empty) as Hs.
  pose proof (add_tokens_indexed (target_scan sentence_pairs) ∅ 0 indexed_upto_empty) as Ht.
  pose proof (add_tokens_first_occurrence (source_scan sentence_pairs)) as Hs'.
  pose proof (add_tokens_first_occurrence (target_scan sentence_pairs)) as Ht'.
  destruct (foldl add_token (∅, 0) (source_scan sentence_pairs)) as [sd sc].
  destruct (foldl add_token (∅, 0) (target_scan sentence_pairs)) as [td tc].
  cbn [fst snd] in *.
  split; [by eapply indexed_upto_contiguous|].
  split; [by eapply indexed_upto_contiguous|]. done.
Qed.

(** The two dictionaries made with the cutoff [K]. *)
Lemma vocabulary_with_cutoff sentence_pairs (K : Z) :
  let source_dict := (get_token_to_index sentence_pairs (Some K)).1 in
  let target_dict := (get_token_to_index sentence_pairs (Some K)).2 in
  contiguous_indices source_dict ∧ contiguous_indices target_dict ∧
  (∀ w i, source_dict !! w = Some i → 0 ≤ i < K ∧ w ∈ source_scan sentence_pairs) ∧
  (∀ w i, target_dict !! w = Some i → 0 ≤ i < K ∧ w ∈ target_scan sentence_pairs) ∧
  (0 ≤ K → Z.of_nat (size source_dict) ≤ K ∧ Z.of_nat (size target_dict) ≤ K).
Proof.
  unfold get_token_to_index.
  rewrite count_loops_split. cbn zeta. cbn [fst snd].
  destruct (cutoff_side source sentence_pairs K) as (Hs1 & Hs2 & Hs3).
  destruct (cutoff_side target sentence_pairs K) as (Ht1 & Ht2 & Ht3).
  split; [done|]. split; [done|]. split; [exact Hs2|]. split; [exact Ht2|].
  intros HK. split; auto.
Qed.

Lemma vocabulary_contiguous sentence_pairs freq_cutoff :
  contiguous_indices (get_token_to_index sentence_pairs freq_cutoff).1 ∧
  contiguous_indices (get_token_to_index sentence_pairs freq_cutoff).2.
Proof.
  destruct freq_cutoff as [K|].
  - destruct (vocabulary_with_cutoff sentence_pairs K) as (? & ? & _). done.
  - destruct (vocabulary_without_cutoff sentence_pairs) as (? & ? & _). done.
Qed.

(** C7: the indices of both dictionaries are unique and contiguous from 0,
    with and without a cutoff.  Without a cutoff, the keys are the tokens of
    the corpus and each token has the index that counts the distinct tokens
    met before its first occurrence, the source side and the target side
    each scanned on its own, sentence by sentence.  With the cutoff [K],
    the keys are tokens of the corpus, every index is below [K], and there
    are at most [K] entries on each side. *)
Theorem get_token_to_index_correct sentence_pairs freq_cutoff :
  let source_dict := (get_token_to_index sentence_pairs freq_cutoff).1 in
  let target_dict := (get_token_to_index sentence_pairs freq_cutoff).2 in
  contiguous_indices source_dict ∧ contiguous_indices target_dict ∧
  match freq_cutoff with
  | None =>
      first_occurrence_order (source_scan sentence_pairs) source_dict ∧
      first_occurrence_order (target_scan sentence_pairs) target_dict
  | Some K =>
      (∀ w i, source_dict !! w = Some i → 0 ≤ i < K ∧ w ∈ source_scan sentence_pairs) ∧
      (∀ w i, target_dict !! w = Some i → 0 ≤ i < K ∧ w ∈ target_scan sentence_pairs) ∧
      (0 ≤ K → Z.of_nat (size source_dict) ≤ K ∧ Z.of_nat (size target_dict) ≤ K)
  end.
Proof.
  destruct freq_cutoff as [K|].
  - apply vocabulary_with_cutoff.
  - apply vocabulary_without_cutoff.
Qed.

Lemma get_token_to_index_correct_witness :
  Z.of_nat (size (get_token_to_index small_corpus (Some 2)).1) ≤ 2 ∧
  Z.of_nat (size (get_token_to_index small_corpus (Some 2)).2) ≤ 2.
Proof.
  apply (get_token_to_index_correct small_corpus (Some 2)). lia.
Defined.

(** Without a cutoff the source tokens of the sample corpus are numbered
    as they come; with the cutoff 2 the two most frequent ones are kept,
    the more frequent first. *)
Example get_token_to_index_small :
  (get_token_to_index small_corpus None).1
    = {[ "a"%string := 0; "b"%string := 1; "c"%string := 2 ]} ∧
  (get_token_to_index small_corpus None).2
    = {[ "x"%string := 0; "y"%string := 1 ]} ∧
  (get_token_to_index small_corpus (Some 2)).1
    = {[ "b"%string := 0; "a"%string := 1 ]} ∧
  (get_token_to_index small_corpus (Some 0)).1 = ∅ ∧
  (get_token_to_index small_corpus (Some (-1))).1 = ∅.
Proof. repeat split; apply map_eq; intros w; vm_compute; reflexivity. Qed.

(** ** The tokenizer *)

Section tokenizer.
Implicit Types (d sd td : gmap string Z) (words : list string) (arr idx : list Z).

(** An inner loop either maps every token of the sentence and leaves the
    flag down, or meets a token that is no key and raises the flag. *)
Lemma lookup_tokens_spec d words arr :
  (in_vocabulary d words ∧
   ∃ idx, lookup_tokens d words arr = (arr ++ idx, false) ∧ encodes d words idx)
  ∨ (¬ in_vocabulary d words ∧ (lookup_tokens d words arr).2 = true).
Proof.
  revert arr. induction words as [|word words IH]; intros arr; simpl.
  - left. split; [constructor|]. exists []. rewrite app_nil_r. split; [done|constructor].
  - destruct (d !! word) as [i|] eqn:Hword.
    + destruct (IH (arr ++ [i])) as [(Hin & idx & -> & Henc)|(Hout & Hflag)].
      * left. split; [by constructor|]. exists (i :: idx).
        rewrite <- app_assoc. split; [done|by constructor].
      * right. split; [|done]. intros Hin. apply Hout. by inv Hin.
    + right. split; [|done]. intros Hin. inv Hin.
      rewrite Hword in *. by eapply is_Some_None.
Qed.

(** One sentence pair: appended whole when both sides are mapped, left out
    otherwise. *)
Lemma tokenize_pair_spec sd td res sp :
  (mappable sd td sp ∧
   ∃ tp, tokenize_pair sd td res sp = res ++ [tp] ∧ encodes_pair sd td sp tp)
  ∨ (¬ mappable sd td sp ∧ tokenize_pair sd td res sp = res).
Proof.
  unfold tokenize_pair, mappable.
  destruct (lookup_tokens_spec sd (source sp) []) as [(Hs & si & -> & Hsi)|(Hs & Hflag)].
  - destruct (lookup_tokens_spec td (target sp) []) as [(Ht & ti & -> & Hti)|(Ht & Hflag)].
    + left. split; [done|]. by eexists (mkTokenizedSentencePair _ _).
    + right. destruct (lookup_tokens td (target sp) []) as [arr flag].
      simpl in Hflag. subst flag. split; [tauto|done].
  - right. destruct (lookup_tokens sd (source sp) []) as [arr flag].
    simpl in Hflag. subst flag. split; [tauto|done].
Qed.

Lemma tokenize_loop_spec sd td sps res :
  ∃ out, foldl (tokenize_pair sd td) res sps = res ++ out ∧
         Forall2 (encodes_pair sd td) (filter (mappable sd td) sps) out.
Proof.
  revert res. induction sps as [|sp sps IH]; intros res; cbn [foldl].
  - exists []. rewrite app_nil_r. split; [done|constructor].
  - rewrite filter_cons.
    destruct (tokenize_pair_spec sd td res sp) as [(Hm & tp & -> & Htp)|(Hm & ->)].
    + destruct (IH (res ++ [tp])) as (out & -> & Hout).
      exists (tp :: out). rewrite <- app_assoc. split; [done|].
      rewrite decide_True by done. by constructor.
    + destruct (IH res) as (out & -> & Hout).
      exists out. split; [done|]. by rewrite decide_False by done.
Qed.

Lemma tokenize_sents_spec sps sd td :
  Forall2 (encodes_pair sd td) (filter (mappable sd td) sps) (tokenize_sents sps sd td).
Proof.
  unfold tokenize_sents. by destruct (tokenize_loop_spec sd td sps []) as (out & -> & Hout).
Qed.

Lemma encodes_range d words idx :
  contiguous_indices d → encodes d words idx →
  Forall (λ i, 0 ≤ i < Z.of_nat (size d)) idx.
Proof.
  intros (_ & Hrange & _) Henc.
  induction Henc as [|w i words idx Hw _ IH]; constructor; [|done].
  by eapply Hrange.
Qed.
End tokenizer.

(** C6: [tokenize_sents] emits, in their order, the sentence pairs all of
    whose source tokens are keys of the source dictionary and all of whose
    target tokens are keys of the target dictionary, each with every token
    of both sides mapped; it emits no more pairs than it is given; and with
    dictionaries made by [get_token_to_index] every emitted index is at
    least 0 and below the size of its dictionary. *)
Theorem tokenize_sents_correct sentence_pairs source_dict target_dict :
  Forall2 (encodes_pair source_dict target_dict)
    (filter (mappable source_dict target_dict) sentence_pairs)
    (tokenize_sents sentence_pairs source_dict target_dict) ∧
  (length (tokenize_sents sentence_pairs source_dict target_dict)
   ≤ length sentence_pairs)%nat ∧
  (∀ corpus freq_cutoff,
     get_token_to_index corpus freq_cutoff = (source_dict, target_dict) →
     ∀ tp, tp ∈ tokenize_sents sentence_pairs source_dict target_dict →
       Forall (λ i, 0 ≤ i < Z.of_nat (size source_dict)) (source_tokens tp) ∧
       Forall (λ i, 0 ≤ i < Z.of_nat (size target_dict)) (target_tokens tp)).
Proof.
  pose proof (tokenize_sents_spec sentence_pairs source_dict target_dict) as Hspec.
  split; [done|]. split.
  - rewrite <- (Forall2_length _ _ _ Hspec). apply length_filter.
  - intros corpus freq_cutoff Hdicts tp Htp.
    pose proof (vocabulary_contiguous corpus freq_cutoff) as Hvocab.
    rewrite Hdicts in Hvocab. destruct Hvocab as (Hsd & Htd).
    apply list_elem_of_lookup in Htp as [n Hn].
    destruct (Forall2_lookup_r _ _ _ _ _ Hspec Hn) as (sp & _ & Hs & Ht).
    split; by eapply encodes_range.
Qed.

Lemma tokenize_sents_correct_witness :
  let source_dict := (get_token_to_index small_corpus None).1 in
  let target_dict := (get_token_to_index small_corpus None).2 in
  let tp := mkTokenizedSentencePair [0; 1; 0] [0] in
  Forall (λ i, 0 ≤ i < Z.of_nat (size source_dict)) (source_tokens tp) ∧
  Forall (λ i, 0 ≤ i < Z.of_nat (size target_dict)) (target_tokens tp).
Proof.
  intros source_dict target_dict tp.
  apply (proj2 (proj2 (tokenize_sents_correct small_corpus source_dict target_dict))
           small_corpus None).
  - reflexivity.
  - assert (tokenize_sents small_corpus source_dict target_dict
            = [tp; mkTokenizedSentencePair [1; 2; 1] [1; 0]]) as ->
      by (vm_compute; reflexivity).
    apply list_elem_of_here.
Defined.

(** A pair with a token that is no key is dropped whole; the pairs around
    it are kept in their order. *)
Example tokenize_sents_drops_pair :
  tokenize_sents [mkSentencePair ["a"; "b"] ["c"]]%string
    {[ "a"%string := 0 ]} {[ "c"%string := 0 ]} = [] ∧
  tokenize_sents
    [mkSentencePair ["1"; "2"] ["1"; "3"]; mkSentencePair ["1"; "2"] ["1"; "4"]]%string
    {[ "1"%string := 1; "2"%string := 2 ]} {[ "1"%string := 1; "4"%string := 4 ]}
  = [mkTokenizedSentencePair [1; 2] [1; 4]].
Proof. split; vm_compute; reflexivity. Qed.

(** The entries of the longer sequence that have no counterpart are not
    counted. *)
Example metrics_ignore_extra_sentences :
  compute_precision example_gold longer_predicted = (2, 2) ∧
  compute_recall example_gold longer_predicted = (1, 1) ∧
  compute_precision example_gold [] = (0, 0).
Proof. repeat split; vm_compute; reflexivity. Qed.

(** A sure tuple that is not possible counts for the precision, and a tuple
    predicted twice counts once. *)
Example metrics_sure_not_possible :
  compute_precision [mkLabeledAlignment [[3; 3]] [[1; 1]]] [[[3; 3]; [3; 3]; [1; 1]; [4; 4]]]
    = (2, 3) ∧
  compute_recall [mkLabeledAlignment [[3; 3]; [3; 3]] [[1; 1]]] [[[3; 3]; [3; 3]; [1; 1]]]
    = (1, 1).
Proof. split; vm_compute; reflexivity. Qed.

(** ** The escaping of ampersands *)

Lemma append_cons (c : ascii) (s1 s2 : string) :
  String c s1 +:+ s2 = String c (s1 +:+ s2).
Proof. reflexivity. Qed.

Lemma append_assoc (s1 s2 s3 : string) : (s1 +:+ s2) +:+ s3 = s1 +:+ s2 +:+ s3.
Proof.
  induction s1 as [|c s1 IH]; [done|]. rewrite !append_cons. by f_equal.
Qed.

Lemma append_length (s1 s2 : string) :
  String.length (s1 +:+ s2) = (String.length s1 + String.length s2)%nat.
Proof.
  induction s1 as [|c s1 IH]; [done|]. rewrite append_cons. simpl. by f_equal.
Qed.

Lemma str_replace_app old new (s1 s2 : string) :
  str_replace old new (s1 +:+ s2) = str_replace old new s1 +:+ str_replace old new s2.
Proof.
  induction s1 as [|c s1 IH]; [done|].
  rewrite append_cons. cbn [str_replace]. rewrite IH.
  destruct (Ascii.eqb c old); [|done]. by rewrite append_assoc.
Qed.

Lemma str_replace_absent old new (s : string) :
  count_char old s = O → str_replace old new s = s.
Proof.
  induction s as [|c s IH]; simpl; [done|].
  destruct (Ascii.eqb c old); [done|]. intros Hs. by rewrite IH.
Qed.

Lemma str_replace_length old new (s : string) :
  String.length (str_replace old new s)
  = (String.length s - count_char old s + String.length new * count_char old s)%nat.
Proof.
  induction s as [|c s IH]; simpl; [lia|].
  assert (count_char old s ≤ String.length s)%nat as Hle.
  { clear. induction s as [|c s IH]; simpl; [lia|]. destruct (Ascii.eqb c old); lia. }
  destruct (Ascii.eqb c old); simpl; [rewrite append_length|]; rewrite IH; lia.
Qed.

(** ** The parser *)

Section parser.
Context {A B : Type}.
Implicit Types (f : A → result B) (l : list A).

Lemma raises_bind {C D : Type} (r : result C) (k : C → result D) :
  raises (rbind r k) ↔ raises r ∨ ∃ x, r = Ok x ∧ raises (k x).
Proof.
  destruct r as [x|e]; simpl; [|tauto].
  split; [by eauto|]. intros [[]|(y & Hy & Hk)]. by simplify_eq.
Qed.

Lemma raise_bind {C D : Type} (r : result C) (k : C → result D) e :
  rbind r k = Raise e → r = Raise e ∨ ∃ x, r = Ok x ∧ k x = Raise e.
Proof. destruct r as [x|e']; simpl; [by eauto|]. intros; simplify_eq. by left. Qed.

Lemma map_result_raises f l :
  raises (map_result f l) ↔ Exists (λ x, raises (f x)) l.
Proof.
  induction l as [|x l IH]; simpl.
  - rewrite Exists_nil. tauto.
  - rewrite Exists_cons, <- IH. destruct (f x) as [y|e]; simpl; [|tauto].
    destruct (map_result f l); simpl; tauto.
Qed.

Lemma map_result_raise f l e :
  map_result f l = Raise e → ∃ x, x ∈ l ∧ f x = Raise e.
Proof.
  induction l as [|x l IH]; simpl; [done|].
  destruct (f x) as [y|e'] eqn:Hx; simpl.
  - destruct (map_result f l); simpl; [done|]. intros; simplify_eq.
    destruct IH as (x' & Hin & Hx'); [done|].
    exists x'. split; [by apply list_elem_of_further|done].
  - intros; simplify_eq. exists x. split; [apply list_elem_of_here|done].
Qed.
End parser.

Lemma int_ascii_raise s e : int_ascii s = Raise e → e = ValueError.
Proof. unfold int_ascii. repeat case_match; congruence. Qed.

(** An [int] that takes every string for a string of ASCII characters. *)
Lemma ascii_only_int : PyInt.
Proof.
  exact {| py_int := int_ascii; py_int_raise := int_ascii_raise;
           py_int_ascii := λ s _ _, eq_refl |}.
Defined.

Lemma parse_tuple_raises `{PI : PyInt} token : raises (parse_tuple token) ↔ bad_token token.
Proof. apply map_result_raises. Qed.

Lemma parse_tuple_raise `{PI : PyInt} token e : parse_tuple token = Raise e → e = ValueError.
Proof.
  intros (piece & _ & Hpiece)%map_result_raise. by eapply py_int_raise.
Qed.

Lemma parse_tuples_raise `{PI : PyInt} tokens e :
  map_result parse_tuple tokens = Raise e → e = ValueError.
Proof.
  intros (token & _ & Htoken)%map_result_raise. by eapply parse_tuple_raise.
Qed.

Lemma parse_tuples_raises `{PI : PyInt} tokens :
  raises (map_result parse_tuple tokens) ↔ Exists bad_token tokens.
Proof.
  rewrite map_result_raises, !Exists_exists.
  by setoid_rewrite parse_tuple_raises.
Qed.

(** The body of the loop raises exactly on the malformed blocks. *)
Lemma extract_block_raises `{PI : PyInt} st block :
  raises (extract_block st block) ↔ malformed_block block.
Proof.
  destruct st as [sentence_pair_list labeled_alignment_list].
  unfold malformed_block, alignment_tokens, field_text, extract_block, getitem.
  destruct block as [t cs]. cbn [children].
  destruct cs as [|c0 [|c1 [|c2 [|c3 rest]]]]; simpl;
    try (split; [intros _; left; lia|done]).
  rewrite Exists_app, <- !parse_tuples_raises.
  destruct (map_result parse_tuple (split_text (text c2))) as [sure_list|e]; simpl.
  - destruct (map_result parse_tuple (split_text (text c3))); simpl.
    + split; [done|]. intros [?|[[]|[]]]. lia.
    + split; [by auto|done].
  - split; [by auto|done].
Qed.

Lemma extract_block_raise `{PI : PyInt} st block e :
  extract_block st block = Raise e → e = IndexError ∨ e = ValueError.
Proof.
  destruct st as [sentence_pair_list labeled_alignment_list].
  unfold extract_block, getitem.
  destruct block as [t cs]. cbn [children].
  destruct cs as [|c0 [|c1 [|c2 [|c3 rest]]]]; simpl;
    try (intros; simplify_eq; by left).
  intros [Hsure|(sure_list & _ & [Hposs|(possible_list & _ & ?)]%raise_bind)]%raise_bind;
    [right..|done]; by eapply parse_tuples_raise.
Qed.

Lemma extract_blocks_raises `{PI : PyInt} blocks st :
  raises (extract_blocks blocks st) ↔ Exists malformed_block blocks.
Proof.
  revert st. induction blocks as [|block blocks IH]; intros st; cbn [extract_blocks].
  - rewrite Exists_nil. done.
  - rewrite Exists_cons, raises_bind, <- extract_block_raises.
    split.
    + intros [?|(st' & _ & Hrest)]; [by left|]. right. by apply (IH st').
    + intros [?|Hrest]; [by left|].
      destruct (extract_block st block) as [st'|e] eqn:Hblock; [|by left].
      right. exists st'. split; [done|]. by apply IH.
Qed.

Lemma extract_blocks_raise `{PI : PyInt} blocks st e :
  extract_blocks blocks st = Raise e → e = IndexError ∨ e = ValueError.
Proof.
  revert st. induction blocks as [|block blocks IH]; intros st; cbn [extract_blocks];
    [done|].
  intros [Hblock|(st' & _ & Hrest)]%raise_bind.
  - by eapply extract_block_raise.
  - by eapply IH.
Qed.

(** C8, as the code has it: the text handed to the markup parser is the raw
    text with every ampersand replaced by the escape of the ampersand,
    whatever follows it; the other characters are kept, and a text without
    ampersands is unchanged. *)
Theorem escape_text_every_ampersand `{XP : XMLParser} `{PI : PyInt} :
  (∀ all_text,
     extract_sentences all_text
     = (root ←? fromstring (escape_text all_text);
        extract_blocks (children root) ([], []))) ∧
  (∀ pre post,
     escape_text (pre +:+ "&" +:+ post)
     = escape_text pre +:+ "&amp;" +:+ escape_text post) ∧
  (∀ s, count_char "&" s = O → escape_text s = s) ∧
  (∀ s, String.length (escape_text s)
        = (String.length s + 4 * count_char "&" s)%nat).
Proof.
  split; [done|]. split; [|split].
  - intros pre post. unfold escape_text. by rewrite !str_replace_app.
  - intros s. apply str_replace_absent.
  - intros s. unfold escape_text. rewrite str_replace_length.
    assert (count_char "&" s ≤ String.length s)%nat as Hle.
    { clear. induction s as [|c s IH]; simpl; [lia|].
      destruct (Ascii.eqb c "&"); lia. }
    simpl. lia.
Qed.

Lemma escape_text_every_ampersand_witness :
  escape_text "1-1 2-2" = "1-1 2-2"%string.
Proof.
  apply (proj1 (proj2 (proj2 (escape_text_every_ampersand
                                (XP := sample_parser) (PI := ascii_only_int))))).
  reflexivity.
Defined.

(** The ampersand of an escape is escaped again. *)
Lemma escape_text_escapes_escaped :
  escape_text "a &amp; b" = "a &amp;amp; b"%string ∧
  escape_text "&amp;" ≠ "&amp;"%string.
Proof. split; [reflexivity|discriminate]. Qed.

(** A short piece of ASCII characters that is no integer literal makes its
    token a bad one, whatever [int] does elsewhere. *)
Lemma bad_token_ascii `{PI : PyInt} token piece :
  piece ∈ str_split "-" token →
  is_ascii piece = true →
  (String.length piece ≤ str_digits_check_threshold)%nat →
  raises (int_ascii piece) →
  bad_token token.
Proof.
  intros Hin Hascii Hlen Hraises. apply Exists_exists. exists piece.
  split; [done|]. by rewrite py_int_ascii.
Qed.

(** A token none of whose pieces is rejected is converted, however many
    pieces it has. *)
Lemma parse_tuple_arity `{PI : PyInt} token :
  ¬ bad_token token →
  ∃ t, parse_tuple token = Ok t ∧ length t = length (str_split "-" token).
Proof.
  unfold bad_token, parse_tuple.
  induction (str_split "-" token) as [|piece pieces IH]; simpl; [by eexists|].
  rewrite Exists_cons. intros Hbad.
  destruct (py_int piece) as [n|e] eqn:Hpiece; simpl; [|destruct Hbad; by left].
  destruct IH as (t & -> & Hlen); [tauto|]. simpl. eexists. split; [done|].
  simpl. by rewrite Hlen.
Qed.

(** Evaluates the conversions of short ASCII strings in the goal. *)
Ltac eval_int :=
  repeat
    (match goal with
     | |- context [py_int ?s] =>
         rewrite (py_int_ascii s)
           by (unfold str_digits_check_threshold; vm_compute; (reflexivity || lia))
     | |- context [int_ascii ?s] =>
         let v := eval vm_compute in (int_ascii s) in
         change (int_ascii s) with v
     end; cbn -[py_int int_ascii]).

(** The sample texts have short fields of ASCII characters, on which [int]
    is fixed: what [extract_sentences] makes of them is the same for every
    [int]. *)
Lemma extract_sentences_sample_texts `{PI : PyInt} :
  extract_sentences (XP := sample_parser) odd_pairs_text
  = Ok ([mkSentencePair ["a"; "b"] ["c"]]%string,
        [mkLabeledAlignment [[7]] [[1; 2; 3]]]) ∧
  extract_sentences (XP := sample_parser) bad_position_text = Raise ValueError ∧
  extract_sentences (XP := sample_parser) short_block_text = Raise IndexError.
Proof.
  unfold extract_sentences.
  assert (fromstring (XMLParser := sample_parser) (escape_text odd_pairs_text)
          = Ok odd_pairs_root) as -> by (vm_compute; reflexivity).
  assert (fromstring (XMLParser := sample_parser) (escape_text bad_position_text)
          = Ok bad_position_root) as -> by (vm_compute; reflexivity).
  assert (fromstring (XMLParser := sample_parser) (escape_text short_block_text)
          = Ok short_block_root) as -> by (vm_compute; reflexivity).
  cbn [rbind].
  unfold odd_pairs_root, bad_position_root, short_block_root, corpus_of, leaf.
  cbn -[py_int]. eval_int. done.
Qed.

(** C9, as the code has it: an error of the markup parser is passed on;
    once the markup is parsed, [extract_sentences] raises [IndexError] or
    [ValueError] when some block has fewer than four fields or has an
    alignment token with a hyphen-separated piece on which [int] raises.
    How many pieces a token has is not looked at: a token none of whose
    pieces is rejected becomes a tuple of as many integers as it has
    pieces. *)
Theorem extract_sentences_aborts `{XP : XMLParser} `{PI : PyInt} all_text :
  (∀ e, fromstring (escape_text all_text) = Raise e →
        extract_sentences all_text = Raise e) ∧
  (∀ root, fromstring (escape_text all_text) = Ok root →
     Exists malformed_block (children root) →
     extract_sentences all_text = Raise IndexError ∨
     extract_sentences all_text = Raise ValueError) ∧
  (∀ token, ¬ bad_token token →
     ∃ t, parse_tuple token = Ok t ∧ length t = length (str_split "-" token)).
Proof.
  unfold extract_sentences. split; [|split].
  - by intros e ->.
  - intros root ->. cbn [rbind].
    intros Hraises%(extract_blocks_raises _ ([], [])).
    destruct (extract_blocks (children root) ([], [])) as [?|e] eqn:Hblocks;
      [done|].
    destruct (extract_blocks_raise _ _ _ Hblocks) as [-> | ->]; auto.
  - apply parse_tuple_arity.
Qed.

Lemma extract_sentences_aborts_witness :
  extract_sentences (XP := sample_parser) (PI := ascii_only_int) bad_position_text
  = Raise IndexError ∨
  extract_sentences (XP := sample_parser) (PI := ascii_only_int) bad_position_text
  = Raise ValueError.
Proof.
  apply (proj1 (proj2 (extract_sentences_aborts (XP := sample_parser)
                         (PI := ascii_only_int) bad_position_text))
           bad_position_root); [reflexivity|].
  apply (bool_decide_unpack _). vm_compute. exact I.
Defined.

(** A token with one position and a token with three are taken as they
    are. *)
Lemma extract_sentences_accepts_odd_pairs :
  extract_sentences (XP := sample_parser) (PI := ascii_only_int) odd_pairs_text
  = Ok ([mkSentencePair ["a"; "b"] ["c"]]%string,
        [mkLabeledAlignment [[7]] [[1; 2; 3]]]).
Proof. exact (proj1 (extract_sentences_sample_texts (PI := ascii_only_int))). Qed.

(** What is raised on the two malformed samples. *)
Example extract_sentences_samples `{PI : PyInt} :
  extract_sentences (XP := sample_parser) bad_position_text = Raise ValueError ∧
  extract_sentences (XP := sample_parser) short_block_text = Raise IndexError.
Proof. exact (proj2 extract_sentences_sample_texts). Qed.

(** [int] on some strings. *)
Example py_int_samples `{PI : PyInt} :
  py_int "42" = Ok 42 ∧ py_int "-7" = Ok (-7) ∧ py_int "+3" = Ok 3 ∧
  py_int "007" = Ok 7 ∧ py_int "1_000" = Ok 1000 ∧
  py_int " 12" = Ok 12 ∧
  py_int EmptyString = Raise ValueError ∧ py_int "x" = Raise ValueError ∧
  py_int "1.5" = Raise ValueError ∧ py_int "1__0" = Raise ValueError ∧
  py_int "-" = Raise ValueError ∧ py_int "_1" = Raise ValueError ∧
  py_int "1_" = Raise ValueError ∧ py_int "- 1" = Raise ValueError ∧
  py_int (String (ascii_of_nat 28) "1") = Raise ValueError ∧
  py_int (String "1" (String (ascii_of_nat 31) EmptyString)) = Raise ValueError ∧
  py_int (String "1" (String (ascii_of_nat 10) EmptyString)) = Ok 1.
Proof.
  repeat split; eval_int; reflexivity.
Qed.

(** [split] on some strings. *)
Example str_split_samples :
  str_split " " "a b" = ["a"; "b"]%string ∧
  str_split " " EmptyString = [EmptyString] ∧
  str_split " " "a  b " = ["a"; EmptyString; "b"; EmptyString]%string ∧
  str_split "-" "3-5" = ["3"; "5"]%string ∧
  str_split "-" "-3-5" = [EmptyString; "3"; "5"]%string.
Proof. repeat split; vm_compute; reflexivity. Qed.

(** * Further properties of the metrics *)

Lemma sumZ_app (l k : list Z) : sumZ (l ++ k) = sumZ l + sumZ k.
Proof. unfold sumZ. induction l as [|x l IH]; simpl; lia. Qed.

(** X1: the metrics of a corpus made of two parts are the sums of the metrics of
    the parts, provided the first parts pair up. *)
Theorem metrics_additive reference1 predicted1 reference2 predicted2 :
  length reference1 = length predicted1 →
  compute_precision (reference1 ++ reference2) (predicted1 ++ predicted2)
  = ((compute_precision reference1 predicted1).1
       + (compute_precision reference2 predicted2).1,
     (compute_precision reference1 predicted1).2
       + (compute_precision reference2 predicted2).2) ∧
  compute_recall (reference1 ++ reference2) (predicted1 ++ predicted2)
  = ((compute_recall reference1 predicted1).1
       + (compute_recall reference2 predicted2).1,
     (compute_recall reference1 predicted1).2
       + (compute_recall reference2 predicted2).2).
Proof.
  intros Hlen.
  rewrite !compute_precision_sums, !compute_recall_sums. cbn [fst snd].
  by rewrite !zip_with_app, !sumZ_app by done.
Qed.

Lemma metrics_additive_witness :
  compute_precision (example_gold ++ skewed_gold) (example_predicted ++ skewed_predicted)
  = (2 + 1, 2 + 3).
Proof.
  apply (metrics_additive example_gold example_predicted skewed_gold skewed_predicted).
  reflexivity.
Defined.

Lemma list_to_set_same (l l' : list tuple) :
  (∀ a, a ∈ l ↔ a ∈ l') → (list_to_set l : gset tuple) = list_to_set l'.
Proof.
  intros Hll'. apply set_eq. intros a. by rewrite !elem_of_list_to_set.
Qed.

Lemma metric_loops_same_sets reference reference' predicted predicted' :
  Forall2 (λ la la', (∀ a, a ∈ sure la ↔ a ∈ sure la') ∧
                     (∀ a, a ∈ possible la ↔ a ∈ possible la'))
          reference reference' →
  Forall2 (λ p p', ∀ a, a ∈ p ↔ a ∈ p') predicted predicted' →
  ∀ acc,
    foldl precision_step acc (zip reference predicted)
      = foldl precision_step acc (zip reference' predicted') ∧
    foldl recall_step acc (zip reference predicted)
      = foldl recall_step acc (zip reference' predicted').
Proof.
  intros Href. revert predicted predicted'.
  induction Href as [|la la' reference reference' [Hsure Hposs] _ IH];
    intros predicted predicted' Hpred acc.
  - by destruct predicted, predicted'.
  - destruct Hpred as [|p p' predicted predicted' Hp Hpred]; [done|].
    cbn [zip zip_with foldl].
    assert (precision_step acc (la, p) = precision_step acc (la', p')) as ->.
    { unfold precision_step. destruct acc.
      by rewrite (list_to_set_same _ _ Hsure), (list_to_set_same _ _ Hposs),
        (list_to_set_same _ _ Hp). }
    assert (recall_step acc (la, p) = recall_step acc (la', p')) as ->.
    { unfold recall_step. destruct acc.
      by rewrite (list_to_set_same _ _ Hsure), (list_to_set_same _ _ Hp). }
    split; by apply IH.
Qed.

(** X2: the metrics see the lists of tuples as sets: lists with the same
    elements, in whatever order and however often repeated, give the same
    precision, recall and error rate. *)
Theorem metrics_set_semantics `{FR : FloatRounding}
    reference reference' predicted predicted' :
  Forall2 (λ la la', (∀ a, a ∈ sure la ↔ a ∈ sure la') ∧
                     (∀ a, a ∈ possible la ↔ a ∈ possible la'))
          reference reference' →
  Forall2 (λ p p', ∀ a, a ∈ p ↔ a ∈ p') predicted predicted' →
  compute_precision reference predicted = compute_precision reference' predicted' ∧
  compute_recall reference predicted = compute_recall reference' predicted' ∧
  compute_aer reference predicted = compute_aer reference' predicted'.
Proof.
  intros Href Hpred.
  destruct (metric_loops_same_sets _ _ _ _ Href Hpred (0, 0)) as [Hp Hr].
  unfold compute_aer, compute_precision, compute_recall. by rewrite Hp, Hr.
Qed.

Lemma metrics_set_semantics_witness :
  compute_aer (FR := binary64_rounding)
    [mkLabeledAlignment [[1; 1]; [1; 1]] [[2; 2]; [1; 1]]] [[[2; 2]; [1; 1]; [2; 2]]]
  = compute_aer (FR := binary64_rounding) example_gold example_predicted.
Proof.
  apply (metrics_set_semantics (FR := binary64_rounding)
           [mkLabeledAlignment [[1; 1]; [1; 1]] [[2; 2]; [1; 1]]] example_gold
           [[[2; 2]; [1; 1]; [2; 2]]] example_predicted).
  - constructor; [|constructor]. simpl. split; intros a; set_solver.
  - constructor; [|constructor]. intros a. set_solver.
Defined.

Lemma recall_hits_le_precision_hits la p : 0 ≤ recall_hits la p ≤ precision_hits la p.
Proof.
  unfold recall_hits, precision_hits. split; [lia|]. apply inj_le.
  induction (remove_dups p) as [|a l IH]; [done|].
  rewrite !filter_cons. repeat case_decide; simpl; try lia. tauto.
Qed.

Lemma recall_numerator_bounds reference predicted :
  0 ≤ (compute_recall reference predicted).1 ≤ (compute_precision reference predicted).1.
Proof.
  rewrite compute_precision_sums, compute_recall_sums. cbn [fst].
  apply sum_hits_le, recall_hits_le_precision_hits.
Qed.

(** X3: a predicted tuple that counts for the recall counts for the precision:
    the numerator of the recall never exceeds that of the precision. *)
Theorem recall_numerator_le_precision_numerator reference predicted :
  (compute_recall reference predicted).1 ≤ (compute_precision reference predicted).1.
Proof. apply recall_numerator_bounds. Qed.

Lemma distinct_zero (l : list tuple) : distinct l = 0 ↔ l = [].
Proof.
  unfold distinct. split; [|by intros ->].
  intros Hl. destruct l as [|a l]; [done|].
  assert (a ∈ remove_dups (a :: l)) as Ha
    by (apply elem_of_remove_dups, list_elem_of_here).
  destruct (remove_dups (a :: l)); [by apply elem_of_nil in Ha|simpl in Hl; lia].
Qed.

Lemma distinct_nonneg (l : list tuple) : 0 ≤ distinct l.
Proof. unfold distinct. lia. Qed.

Lemma denominators_zero reference predicted :
  sumZ (zip_with (λ _ p, distinct p) reference predicted)
  + sumZ (zip_with (λ la _, distinct (sure la)) reference predicted) = 0
  ↔ Forall (λ item, sure item.1 = [] ∧ item.2 = []) (zip reference predicted).
Proof.
  revert predicted. induction reference as [|la reference IH];
    intros [|p predicted]; simpl; try (split; [constructor|done]).
  rewrite Forall_cons, <- IH, <- !distinct_zero. simpl.
  pose proof (distinct_nonneg p) as Hp.
  pose proof (distinct_nonneg (sure la)) as Hs.
  assert (0 ≤ sumZ (zip_with (λ _ p, distinct p) reference predicted)) as Hps.
  { clear. revert predicted. induction reference as [|la reference IH];
      intros [|p predicted]; simpl; try done.
    specialize (IH predicted). pose proof (distinct_nonneg p). lia. }
  assert (0 ≤ sumZ (zip_with (λ la _, distinct (sure la)) reference predicted)) as Hss.
  { clear. revert predicted. induction reference as [|la reference IH];
      intros [|p predicted]; simpl; try done.
    specialize (IH predicted). pose proof (distinct_nonneg (sure la)). lia. }
  lia.
Qed.

(** X4: [compute_aer] raises exactly when no paired sentence has a predicted or
    a sure tuple, and what it raises is [ZeroDivisionError]. *)
Theorem compute_aer_raises_iff `{FR : FloatRounding} reference predicted :
  (raises (compute_aer reference predicted)
   ↔ Forall (λ item, sure item.1 = [] ∧ item.2 = []) (zip reference predicted)) ∧
  (∀ e, compute_aer reference predicted = Raise e → e = ZeroDivisionError).
Proof.
  rewrite compute_aer_unfold, <- denominators_zero.
  rewrite compute_precision_sums, compute_recall_sums. cbn [fst snd].
  unfold py_truediv. case_decide as Hden; simpl.
  - split; [tauto|]. by intros e [= <-].
  - split; [tauto|done].
Qed.

Lemma sumZ_zip_with_ext {A B} (f g : A → B → Z) (P : A * B → Prop) l k :
  (∀ x y, P (x, y) → f x y = g x y) →
  Forall P (zip l k) → sumZ (zip_with f l k) = sumZ (zip_with g l k).
Proof.
  intros Hfg. revert k. induction l as [|x l IH]; intros [|y k] HP; simpl; try done.
  apply Forall_cons in HP as [Hxy HP]. rewrite (Hfg x y Hxy), IH; done.
Qed.

Lemma compute_aer_raises_iff_witness :
  raises (compute_aer (FR := binary64_rounding)
            [mkLabeledAlignment [] [[1; 1]]; mkLabeledAlignment [] []] [[]; []; [[2; 2]]]).
Proof.
  apply (compute_aer_raises_iff (FR := binary64_rounding)
           [mkLabeledAlignment [] [[1; 1]]; mkLabeledAlignment [] []] [[]; []; [[2; 2]]]).
  repeat constructor.
Defined.

Lemma aer_of_equal_counts `{FR : FloatRounding} (d : Z) :
  d ≠ 0 → (fl (1 - fl (inject_Z d / inject_Z d)) == 0)%Q.
Proof.
  intros Hd.
  assert (inject_Z d / inject_Z d == 1)%Q as Hq.
  { apply Qmult_inv_r. unfold Qeq. simpl. lia. }
  rewrite <- fl_zero. apply fl_proper.
  rewrite (fl_proper _ _ Hq), fl_one. reflexivity.
Qed.

Lemma aer_of_no_hits `{FR : FloatRounding} (d : Z) :
  (fl (1 - fl (inject_Z 0 / inject_Z d)) == 1)%Q.
Proof.
  assert (inject_Z 0 / inject_Z d == 0)%Q as Hq.
  { unfold Qdiv. apply Qmult_0_l. }
  rewrite <- fl_one at 2. apply fl_proper.
  rewrite (fl_proper _ _ Hq), fl_zero. reflexivity.
Qed.

(** X5: when the predicted tuples of every paired sentence are exactly its sure
    tuples, both numerators equal their denominators and the error rate,
    where it is defined, is 0, whatever the possible tuples are. *)
Theorem perfect_prediction `{FR : FloatRounding} reference predicted :
  Forall (λ item, ∀ a, a ∈ item.2 ↔ a ∈ sure item.1) (zip reference predicted) →
  (compute_precision reference predicted).1 = (compute_precision reference predicted).2 ∧
  (compute_recall reference predicted).1 = (compute_recall reference predicted).2 ∧
  ((compute_precision reference predicted).2
   + (compute_recall reference predicted).2 ≠ 0 →
   ∃ aer, compute_aer reference predicted = Ok aer ∧ (aer == 0)%Q).
Proof.
  intros Hsame.
  assert ((compute_precision reference predicted).1
          = (compute_precision reference predicted).2) as Hp.
  { rewrite compute_precision_sums. cbn [fst snd].
    eapply sumZ_zip_with_ext; [|exact Hsame].
    intros la p Hla. simpl in Hla.
    rewrite <- precision_num_sentence, <- len_set_list_to_set. f_equal.
    apply set_eq. intros a.
    rewrite elem_of_intersection, elem_of_union, !elem_of_list_to_set, (Hla a). tauto. }
  assert ((compute_recall reference predicted).1
          = (compute_recall reference predicted).2) as Hr.
  { rewrite compute_recall_sums. cbn [fst snd].
    eapply sumZ_zip_with_ext; [|exact Hsame].
    intros la p Hla. simpl in Hla.
    rewrite <- recall_num_sentence, <- len_set_list_to_set. f_equal.
    apply set_eq. intros a.
    rewrite elem_of_intersection, !elem_of_list_to_set, (Hla a). tauto. }
  split; [done|]. split; [done|].
  intros Hden. rewrite compute_aer_unfold, Hp, Hr. unfold py_truediv.
  rewrite decide_False by done. simpl. eexists. split; [done|].
  by apply aer_of_equal_counts.
Qed.

Lemma perfect_prediction_witness :
  ∃ aer, compute_aer (FR := binary64_rounding)
           [mkLabeledAlignment [[1; 1]; [2; 3]] []] [[[2; 3]; [1; 1]; [2; 3]]] = Ok aer ∧
    (aer == 0)%Q.
Proof.
  apply (perfect_prediction (FR := binary64_rounding)
           [mkLabeledAlignment [[1; 1]; [2; 3]] []] [[[2; 3]; [1; 1]; [2; 3]]]).
  - constructor; [|constructor]. intros a. simpl. set_solver.
  - vm_compute. discriminate.
Defined.

(** X6: when no predicted tuple of a paired sentence is possible or sure, both
    numerators are 0 and the error rate, where it is defined, is 1. *)
Theorem disjoint_prediction `{FR : FloatRounding} reference predicted :
  Forall (λ item, ∀ a, a ∈ item.2 → ¬ (a ∈ possible item.1 ∨ a ∈ sure item.1))
         (zip reference predicted) →
  (compute_precision reference predicted).1 = 0 ∧
  (compute_recall reference predicted).1 = 0 ∧
  ((compute_precision reference predicted).2
   + (compute_recall reference predicted).2 ≠ 0 →
   ∃ aer, compute_aer reference predicted = Ok aer ∧ (aer == 1)%Q).
Proof.
  intros Hnone.
  assert (sumZ (zip_with (λ (_ : LabeledAlignment) (_ : list tuple), 0)
                  reference predicted) = 0) as H0.
  { clear. revert predicted. induction reference as [|la reference IH];
      intros [|p predicted]; simpl; try done. rewrite IH. lia. }
  assert ((compute_precision reference predicted).1 = 0) as Hp.
  { rewrite compute_precision_sums. cbn [fst]. rewrite <- H0.
    eapply sumZ_zip_with_ext; [|exact Hnone].
    intros la p Hla. simpl in Hla.
    rewrite <- precision_num_sentence. unfold len_set.
    replace ((list_to_set (possible la) ∪ list_to_set (sure la)) ∩ list_to_set p)
      with (∅ : gset tuple); [done|].
    symmetry. apply set_eq. intros a.
    rewrite elem_of_intersection, elem_of_union, !elem_of_list_to_set.
    split; [|by intros ?%not_elem_of_empty].
    intros [Hin Ha]. by destruct (Hla a Ha). }
  assert ((compute_recall reference predicted).1 = 0) as Hr.
  { pose proof (recall_numerator_bounds reference predicted). lia. }
  split; [done|]. split; [done|].
  intros Hden. rewrite compute_aer_unfold, Hp, Hr. unfold py_truediv.
  rewrite decide_False by done. simpl. eexists. split; [done|].
  apply aer_of_no_hits.
Qed.

Lemma disjoint_prediction_witness :
  ∃ aer, compute_aer (FR := binary64_rounding)
           [mkLabeledAlignment [[1; 1]] [[1; 1]]] [[[2; 2]]] = Ok aer ∧
    (aer == 1)%Q.
Proof.
  apply (disjoint_prediction (FR := binary64_rounding)
           [mkLabeledAlignment [[1; 1]] [[1; 1]]] [[[2; 2]]]).
  - constructor; [|constructor]. intros a. simpl. set_solver.
  - vm_compute. discriminate.
Defined.

(** * Further properties of the tokenizer *)

Lemma lookup_tokens_encode d words arr :
  match encode_words d words with
  | Some idx => lookup_tokens d words arr = (arr ++ idx, false)
  | None => (lookup_tokens d words arr).2 = true
  end.
Proof.
  destruct (lookup_tokens_spec d words arr) as [(Hin & idx & Hlook & Henc)|(Hout & Hflag)].
  - apply mapM_Some_2 in Henc. unfold encode_words. by rewrite Henc.
  - destruct (encode_words d words) as [idx|] eqn:Henc; [|done].
    destruct Hout. apply mapM_is_Some. by exists idx.
Qed.

Lemma tokenize_pair_encode sd td res sp :
  tokenize_pair sd td res sp = res ++ option_list (encode_pair sd td sp).
Proof.
  unfold tokenize_pair, encode_pair.
  pose proof (lookup_tokens_encode sd (source sp) []) as Hs.
  pose proof (lookup_tokens_encode td (target sp) []) as Ht.
  destruct (encode_words sd (source sp)) as [si|]; simpl.
  - rewrite Hs. destruct (encode_words td (target sp)) as [ti|]; simpl.
    + by rewrite Ht.
    + destruct (lookup_tokens td (target sp) []) as [arr flag].
      simpl in Ht. subst flag. by rewrite app_nil_r.
  - destruct (lookup_tokens sd (source sp) []) as [arr flag].
    simpl in Hs. subst flag. by rewrite app_nil_r.
Qed.

(** The tokenizer as a partial map over the sentence pairs. *)
Lemma tokenize_sents_omap sps sd td :
  tokenize_sents sps sd td = omap (encode_pair sd td) sps.
Proof.
  unfold tokenize_sents.
  assert (∀ res, foldl (tokenize_pair sd td) res sps
                 = res ++ omap (encode_pair sd td) sps) as Hgen.
  { induction sps as [|sp sps IH]; intros res; cbn [foldl].
    - by rewrite app_nil_r.
    - rewrite IH, tokenize_pair_encode, <- app_assoc. f_equal.
      simpl. by destruct (encode_pair sd td sp). }
  apply (Hgen []).
Qed.

(** X8: tokenizing a corpus in two parts gives the two results one after the
    other: whether a pair is kept does not depend on the pairs around it. *)
Theorem tokenize_sents_app sentence_pairs1 sentence_pairs2 source_dict target_dict :
  tokenize_sents (sentence_pairs1 ++ sentence_pairs2) source_dict target_dict
  = tokenize_sents sentence_pairs1 source_dict target_dict
    ++ tokenize_sents sentence_pairs2 source_dict target_dict.
Proof. rewrite !tokenize_sents_omap. apply omap_app. Qed.

Lemma encode_words_weaken (d d' : gmap string Z) words idx :
  d ⊆ d' → encode_words d words = Some idx → encode_words d' words = Some idx.
Proof.
  intros Hsub Henc. apply mapM_Some. apply mapM_Some in Henc.
  eapply Forall2_impl; [exact Henc|]. intros w i Hw. simpl in *.
  exact (lookup_weaken _ _ _ _ Hw Hsub).
Qed.

Lemma encode_pair_weaken (sd sd' td td' : gmap string Z) sp tp :
  sd ⊆ sd' → td ⊆ td' →
  encode_pair sd td sp = Some tp → encode_pair sd' td' sp = Some tp.
Proof.
  intros Hs Ht. unfold encode_pair.
  destruct (encode_words sd (source sp)) as [si|] eqn:Hsi; [|done].
  destruct (encode_words td (target sp)) as [ti|] eqn:Hti; [|done].
  simpl. intros [= <-].
  by rewrite (encode_words_weaken _ _ _ _ Hs Hsi), (encode_words_weaken _ _ _ _ Ht Hti).
Qed.

(** X9: larger dictionaries keep every pair that smaller ones keep, with the
    same indices and in the same order. *)
Theorem tokenize_sents_monotone sentence_pairs
    (source_dict source_dict' target_dict target_dict' : gmap string Z) :
  source_dict ⊆ source_dict' → target_dict ⊆ target_dict' →
  tokenize_sents sentence_pairs source_dict target_dict
    `sublist_of` tokenize_sents sentence_pairs source_dict' target_dict'.
Proof.
  intros Hs Ht. rewrite !tokenize_sents_omap.
  induction sentence_pairs as [|sp sps IH]; simpl; [constructor|].
  destruct (encode_pair source_dict target_dict sp) as [tp|] eqn:Henc.
  - rewrite (encode_pair_weaken _ _ _ _ _ _ Hs Ht Henc). by constructor.
  - destruct (encode_pair source_dict' target_dict' sp); [by constructor|done].
Qed.

Lemma tokenize_sents_monotone_witness :
  tokenize_sents small_corpus {[ "a"%string := 0; "b"%string := 1 ]} {[ "x"%string := 0 ]}
    `sublist_of`
  tokenize_sents small_corpus
    (<[ "c"%string := 2 ]> {[ "a"%string := 0; "b"%string := 1 ]})
    (<[ "y"%string := 1 ]> {[ "x"%string := 0 ]}).
Proof.
  apply (tokenize_sents_monotone small_corpus).
  - apply insert_subseteq. vm_compute. reflexivity.
  - apply insert_subseteq. vm_compute. reflexivity.
Defined.

Lemma elem_of_concat_fmap {A B} (f : A → list B) (l : list A) x y :
  x ∈ l → y ∈ f x → y ∈ concat (f <$> l).
Proof.
  intros Hx Hy. induction Hx as [x l|x x' l _ IH]; simpl; apply elem_of_app; auto.
Qed.

Lemma filter_all {A} (P : A → Prop) `{!∀ x, Decision (P x)} (l : list A) :
  Forall P l → filter P l = l.
Proof.
  induction 1 as [|x l Hx _ IH]; [done|].
  by rewrite filter_cons, decide_True, IH by done.
Qed.

(** X10: dictionaries built without a cutoff from a corpus drop no sentence
    pair of that corpus: every pair comes out, in its place and with every
    token mapped. *)
Theorem tokenize_sents_own_vocabulary corpus sentence_pairs :
  (∀ sp, sp ∈ sentence_pairs → sp ∈ corpus) →
  let source_dict := (get_token_to_index corpus None).1 in
  let target_dict := (get_token_to_index corpus None).2 in
  Forall2 (encodes_pair source_dict target_dict) sentence_pairs
    (tokenize_sents sentence_pairs source_dict target_dict) ∧
  length (tokenize_sents sentence_pairs source_dict target_dict) = length sentence_pairs.
Proof.
  intros Hsub source_dict target_dict.
  destruct (vocabulary_without_cutoff corpus) as (_ & _ & [Hs _] & [Ht _]).
  fold source_dict in Hs. fold target_dict in Ht.
  pose proof (tokenize_sents_spec sentence_pairs source_dict target_dict) as Hspec.
  rewrite filter_all in Hspec.
  - split; [done|]. symmetry. by eapply Forall2_length.
  - apply Forall_forall. intros sp Hsp. split; apply Forall_forall; intros w Hw.
    + apply Hs. eapply (elem_of_concat_fmap source); [by apply Hsub|done].
    + apply Ht. eapply (elem_of_concat_fmap target); [by apply Hsub|done].
Qed.

Lemma tokenize_sents_own_vocabulary_witness :
  length (tokenize_sents (take 1 small_corpus)
            (get_token_to_index small_corpus None).1
            (get_token_to_index small_corpus None).2) = 1%nat.
Proof.
  apply (tokenize_sents_own_vocabulary small_corpus (take 1 small_corpus)).
  intros sp Hsp. apply list_elem_of_singleton in Hsp as ->. apply list_elem_of_here.
Defined.

Lemma encodes_injective (d : gmap string Z) words words' idx :
  contiguous_indices d →
  encode_words d words = Some idx → encode_words d words' = Some idx → words = words'.
Proof.
  intros (_ & _ & _ & Hinj) Hw%mapM_Some Hw'%mapM_Some.
  revert words' Hw'. induction Hw as [|w i words idx Hwi _ IH]; intros words' Hw'.
  - by inv Hw'.
  - inv Hw'. f_equal; [by eapply Hinj|by apply IH].
Qed.

(** X11: with dictionaries made by [get_token_to_index] the tokenizer loses
    nothing of the pairs it keeps: two sentence pairs that come out as the
    same tokenized pair are the same pair. *)
Theorem tokenize_sents_injective corpus freq_cutoff sp sp' tp :
  let source_dict := (get_token_to_index corpus freq_cutoff).1 in
  let target_dict := (get_token_to_index corpus freq_cutoff).2 in
  tokenize_sents [sp] source_dict target_dict = [tp] →
  tokenize_sents [sp'] source_dict target_dict = [tp] →
  sp = sp'.
Proof.
  intros source_dict target_dict.
  destruct (vocabulary_contiguous corpus freq_cutoff) as [Hs Ht].
  fold source_dict in Hs. fold target_dict in Ht.
  rewrite !tokenize_sents_omap. simpl. unfold encode_pair.
  destruct (encode_words source_dict (source sp)) as [si|] eqn:Hsi; [|done].
  destruct (encode_words target_dict (target sp)) as [ti|] eqn:Hti; [|done].
  destruct (encode_words source_dict (source sp')) as [si'|] eqn:Hsi'; [|done].
  destruct (encode_words target_dict (target sp')) as [ti'|] eqn:Hti'; [|done].
  simpl. intros [= <-] [= -> ->].
  destruct sp as [s t], sp' as [s' t']. simpl in *.
  f_equal.
  - exact (encodes_injective _ _ _ _ Hs Hsi Hsi').
  - exact (encodes_injective _ _ _ _ Ht Hti Hti').
Qed.

Lemma tokenize_sents_injective_witness :
  mkSentencePair ["a"; "b"; "a"] ["x"] = mkSentencePair ["a"; "b"; "a"] ["x"]%string.
Proof.
  apply (tokenize_sents_injective small_corpus None _ _
           (mkTokenizedSentencePair [0; 1; 0] [0])); vm_compute; reflexivity.
Defined.

(** * Further properties of the vocabulary builder *)

Lemma source_scan_app sps sps' :
  source_scan (sps ++ sps') = source_scan sps ++ source_scan sps'.
Proof. unfold source_scan. by rewrite fmap_app, concat_app. Qed.

Lemma target_scan_app sps sps' :
  target_scan (sps ++ sps') = target_scan sps ++ target_scan sps'.
Proof. unfold target_scan. by rewrite fmap_app, concat_app. Qed.

Lemma add_tokens_extend l l' w i :
  (foldl add_token (∅, 0) l).1 !! w = Some i →
  (foldl add_token (∅, 0) (l ++ l')).1 !! w = Some i.
Proof.
  intros Hw. rewrite foldl_app.
  destruct (foldl add_token (∅, 0) l) as [d c]. by apply add_tokens_keep.
Qed.

(** X12: without a cutoff, sentence pairs added at the end of the corpus leave
    the index of every token of the corpus as it was. *)
Theorem get_token_to_index_extend sentence_pairs more w i :
  ((get_token_to_index sentence_pairs None).1 !! w = Some i →
   (get_token_to_index (sentence_pairs ++ more) None).1 !! w = Some i) ∧
  ((get_token_to_index sentence_pairs None).2 !! w = Some i →
   (get_token_to_index (sentence_pairs ++ more) None).2 !! w = Some i).
Proof.
  unfold get_token_to_index. rewrite !scan_pairs_split.
  rewrite source_scan_app, target_scan_app.
  pose proof (add_tokens_extend (source_scan sentence_pairs) (source_scan more) w i) as Hs.
  pose proof (add_tokens_extend (target_scan sentence_pairs) (target_scan more) w i) as Ht.
  destruct (foldl add_token (∅, 0) (source_scan sentence_pairs)) as [sd sc].
  destruct (foldl add_token (∅, 0) (target_scan sentence_pairs)) as [td tc].
  destruct (foldl add_token (∅, 0) (source_scan sentence_pairs ++ source_scan more))
    as [sd' sc'].
  destruct (foldl add_token (∅, 0) (target_scan sentence_pairs ++ target_scan more))
    as [td' tc'].
  done.
Qed.

Lemma get_token_to_index_extend_witness :
  (get_token_to_index (take 1 small_corpus ++ drop 1 small_corpus) None).1 !! "b"%string
  = Some 1.
Proof.
  apply (get_token_to_index_extend (take 1 small_corpus) (drop 1 small_corpus)).
  vm_compute. reflexivity.
Defined.

(** X13: each dictionary is made from its own side of the corpus alone: two
    corpora with the same source sentences give the same source dictionary,
    and likewise for the target side, with or without a cutoff. *)
Theorem get_token_to_index_sides sentence_pairs sentence_pairs' freq_cutoff :
  (source <$> sentence_pairs = source <$> sentence_pairs' →
   (get_token_to_index sentence_pairs freq_cutoff).1
   = (get_token_to_index sentence_pairs' freq_cutoff).1) ∧
  (target <$> sentence_pairs = target <$> sentence_pairs' →
   (get_token_to_index sentence_pairs freq_cutoff).2
   = (get_token_to_index sentence_pairs' freq_cutoff).2).
Proof.
  unfold get_token_to_index. destruct freq_cutoff as [K|].
  - rewrite !count_loops_split. cbn zeta. cbn [fst snd].
    pose proof (λ (f : SentencePair → list string) (sps : list SentencePair),
                  foldl_fmap (λ c ws, counter_iadd c (Counter_of ws))
                    ([] : Counter) sps f) as Hfold.
    simpl in Hfold.
    rewrite <- (Hfold source sentence_pairs), <- (Hfold source sentence_pairs'),
      <- (Hfold target sentence_pairs), <- (Hfold target sentence_pairs').
    split; by intros ->.
  - rewrite !scan_pairs_split. unfold source_scan, target_scan.
    split; intros ->;
      repeat match goal with |- context [foldl add_token ?a ?l] =>
        destruct (foldl add_token a l) end; done.
Qed.

Lemma get_token_to_index_sides_witness :
  (get_token_to_index small_corpus (Some 2)).1
  = (get_token_to_index
       ((λ sp, mkSentencePair (source sp) []) <$> small_corpus) (Some 2)).1.
Proof.
  apply (get_token_to_index_sides small_corpus
           ((λ sp, mkSentencePair (source sp) []) <$> small_corpus) (Some 2)).
  reflexivity.
Defined.

(** X14: without a cutoff each dictionary has one entry for each distinct token
    of its side. *)
Theorem get_token_to_index_size sentence_pairs :
  size (get_token_to_index sentence_pairs None).1
  = length (remove_dups (source_scan sentence_pairs)) ∧
  size (get_token_to_index sentence_pairs None).2
  = length (remove_dups (target_scan sentence_pairs)).
Proof.
  unfold get_token_to_index. rewrite scan_pairs_split.
  pose proof (add_tokens_indexed (source_scan sentence_pairs) ∅ 0 indexed_upto_empty) as [Hs _].
  pose proof (add_tokens_indexed (target_scan sentence_pairs) ∅ 0 indexed_upto_empty) as [Ht _].
  rewrite add_tokens_size in Hs, Ht.
  destruct (foldl add_token (∅, 0) (source_scan sentence_pairs)) as [sd sc].
  destruct (foldl add_token (∅, 0) (target_scan sentence_pairs)) as [td tc].
  cbn [fst snd] in *. lia.
Qed.

(** ** What the counters hold *)

Section counts.
Implicit Types (c other : Counter) (w elem : string) (l : list string).

Lemma counter_get_cons k v c w :
  counter_get ((k, v) :: c) w = (if decide (k = w) then v else 0) + counter_get c w.
Proof.
  unfold counter_get. rewrite filter_cons. simpl. by case_decide.
Qed.

Lemma counter_get_add c elem n w :
  counter_get (counter_add c elem n) w
  = counter_get c w + (if decide (elem = w) then n else 0).
Proof.
  induction c as [|[k v] c IH]; cbn [counter_add].
  - rewrite counter_get_cons. unfold counter_get. simpl. case_decide; lia.
  - destruct (decide (k = elem)) as [->|Hne].
    + rewrite !counter_get_cons. case_decide; lia.
    + rewrite !counter_get_cons, IH. lia.
Qed.

Lemma counter_get_adds c other w :
  counter_get (foldl (λ c kv, counter_add c kv.1 kv.2) c other) w
  = counter_get c w + counter_get other w.
Proof.
  revert c. induction other as [|[k v] other IH]; intros c; cbn [foldl].
  - unfold counter_get at 3. simpl. lia.
  - rewrite IH, counter_get_add, counter_get_cons. simpl. lia.
Qed.

Lemma occurrences_app w l l' : occurrences w (l ++ l') = occurrences w l + occurrences w l'.
Proof. unfold occurrences. rewrite filter_app, length_app. lia. Qed.

Lemma occurrences_cons w w' l :
  occurrences w (w' :: l) = (if decide (w' = w) then 1 else 0) + occurrences w l.
Proof. unfold occurrences. rewrite filter_cons. case_decide; simpl; lia. Qed.

Lemma occurrences_pos w l : 0 < occurrences w l ↔ w ∈ l.
Proof.
  induction l as [|w' l IH]; [unfold occurrences; simpl; by rewrite elem_of_nil; lia|].
  rewrite occurrences_cons, elem_of_cons.
  assert (0 ≤ occurrences w l) by (unfold occurrences; lia).
  case_decide; [subst; split; [by left|lia]|].
  rewrite <- IH. split; [by right|]. intros [->|?]; [done|lia].
Qed.

Lemma counter_get_Counter_of l w : counter_get (Counter_of l) w = occurrences w l.
Proof.
  unfold Counter_of.
  assert (∀ c, counter_get (foldl (λ c elem, counter_add c elem 1) c l) w
               = counter_get c w + occurrences w l) as Hgen.
  { induction l as [|w' l IH]; intros c; cbn [foldl].
    - unfold occurrences. simpl. lia.
    - rewrite IH, counter_get_add, occurrences_cons. lia. }
  rewrite Hgen. unfold counter_get. simpl. lia.
Qed.

Lemma counter_add_positive c elem n :
  0 < n → positive_counts c → positive_counts (counter_add c elem n).
Proof.
  intros Hn. unfold positive_counts.
  induction c as [|[k v] c IH]; cbn [counter_add]; intros Hc.
  - repeat constructor. simpl. lia.
  - apply Forall_cons in Hc as [Hv Hc]. simpl in Hv.
    case_decide; constructor; simpl; auto; lia.
Qed.

Lemma Counter_of_positive l : positive_counts (Counter_of l).
Proof.
  unfold Counter_of.
  assert (∀ c, positive_counts c →
               positive_counts (foldl (λ c elem, counter_add c elem 1) c l)) as Hgen.
  { induction l as [|w l IH]; intros c Hc; cbn [foldl]; [done|].
    apply IH, counter_add_positive; [lia|done]. }
  apply Hgen. constructor.
Qed.

Lemma counter_iadd_positive c other :
  positive_counts c → positive_counts other →
  counter_iadd c other = foldl (λ c kv, counter_add c kv.1 kv.2) c other ∧
  positive_counts (counter_iadd c other).
Proof.
  intros Hc Hother. unfold counter_iadd.
  assert (positive_counts (foldl (λ c kv, counter_add c kv.1 kv.2) c other)) as Hpos.
  { revert c Hc. induction Hother as [|[k v] other Hv _ IH]; intros c Hc; cbn [foldl];
      [done|]. by apply IH, counter_add_positive. }
  split; [by apply (filter_all (λ kv : string * Z, 0 < kv.2))|].
  by rewrite (filter_all (λ kv : string * Z, 0 < kv.2) _ Hpos).
Qed.

(** After the counting loop the count of a token is the number of its
    occurrences. *)
Lemma count_loop_counts (f : SentencePair → list string) sps c :
  positive_counts c →
  positive_counts (foldl (λ c sp, counter_iadd c (Counter_of (f sp))) c sps) ∧
  ∀ w, counter_get (foldl (λ c sp, counter_iadd c (Counter_of (f sp))) c sps) w
       = counter_get c w + occurrences w (concat (f <$> sps)).
Proof.
  revert c. induction sps as [|sp sps IH]; intros c Hc; cbn [foldl].
  - split; [done|]. intros w. unfold occurrences. simpl. lia.
  - destruct (counter_iadd_positive c (Counter_of (f sp)) Hc (Counter_of_positive _))
      as [Heq Hpos].
    destruct (IH _ Hpos) as [Hpos' Hget]. split; [done|].
    intros w. rewrite Hget, Heq, counter_get_adds, counter_get_Counter_of.
    rewrite fmap_cons. simpl. rewrite occurrences_app. lia.
Qed.

Lemma counter_get_absent c w : w ∉ c.*1 → counter_get c w = 0.
Proof.
  induction c as [|[k v] c IH]; [done|].
  rewrite fmap_cons, not_elem_of_cons, counter_get_cons. simpl.
  intros [Hne Hc]. rewrite decide_False, IH by done. lia.
Qed.

Lemma counter_get_entry c w v : NoDup c.*1 → (w, v) ∈ c → counter_get c w = v.
Proof.
  induction c as [|[k v'] c IH]; intros Hnd Hin; [by apply elem_of_nil in Hin|].
  rewrite fmap_cons in Hnd. apply NoDup_cons in Hnd as [Hk Hnd].
  rewrite counter_get_cons. apply elem_of_cons in Hin as [[= -> ->]|Hin].
  - rewrite decide_True, counter_get_absent by done. lia.
  - assert (w ∈ c.*1) as Hw by (apply list_elem_of_fmap; by exists (w, v)).
    rewrite decide_False, IH by (try done; by intros ->). lia.
Qed.

Lemma counter_get_key c w : counter_get c w ≠ 0 → ∃ v, (w, v) ∈ c.
Proof.
  induction c as [|[k v] c IH]; [done|].
  rewrite counter_get_cons. case_decide as Hk.
  - subst. intros _. exists v. apply list_elem_of_here.
  - intros Hget. destruct IH as [v' Hv']; [lia|].
    exists v'. by apply list_elem_of_further.
Qed.
End counts.

(** ** The ranking under a cutoff *)

Lemma most_common_strongly_sorted (c : Counter) :
  StronglySorted (λ x y : string * Z, y.2 ≤ x.2) (most_common c).
Proof.
  apply Sorted_StronglySorted; [|apply most_common_sorted].
  intros x y z Hxy Hyz. simpl in *. lia.
Qed.

Lemma StronglySorted_lookup {A} (R : A → A → Prop) (l : list A) (i j : nat) x y :
  StronglySorted R l → l !! i = Some x → l !! j = Some y → (i < j)%nat → R x y.
Proof.
  intros Hl. revert i j. induction Hl as [|z l Hl IH Hz]; intros i j Hi Hj Hij; [done|].
  destruct j as [|j]; [lia|]. simpl in Hj. destruct i as [|i]; simpl in Hi.
  - simplify_eq. eapply Forall_forall; [exact Hz|]. by eapply list_elem_of_lookup_2.
  - apply (IH i j); [done..|lia].
Qed.

Lemma assign_indices_lookup (items : list (string * Z)) (index K : Z)
    (d : gmap string Z) w i :
  NoDup items.*1 →
  (∀ k, k ∈ items.*1 → d !! k = None) →
  assign_indices items index K d !! w = Some i
  ↔ d !! w = Some i
    ∨ (index ≤ i < K ∧ ∃ v, items !! Z.to_nat (i - index) = Some (w, v)).
Proof.
  revert index d. induction items as [|[k v] items IH]; intros index d Hnd Hfresh;
    cbn [assign_indices].
  - split; [by left|]. intros [?|(_ & v & Hv)]; done.
  - destruct (K <=? index) eqn:Hcut.
    + split; [by left|]. intros [?|(? & _)]; [done|lia].
    + rewrite fmap_cons in Hnd. apply NoDup_cons in Hnd as [Hk Hnd].
      assert (d !! k = None) as Hdk by (apply Hfresh, list_elem_of_here).
      cbn [fst] in Hk |- *.
      rewrite IH; [|done|].
      2:{ intros k' Hk'. rewrite lookup_insert_ne by congruence.
          apply Hfresh. rewrite fmap_cons. by apply list_elem_of_further. }
      rewrite lookup_insert. split.
      * intros [Hw|(Hi & v' & Hv')].
        -- case_decide as Hkw; [|by left]. simplify_eq. right.
           split; [lia|]. exists v. by rewrite Z.sub_diag.
        -- right. split; [lia|]. exists v'.
           replace (Z.to_nat (i - index)) with (S (Z.to_nat (i - (index + 1)))) by lia.
           done.
      * intros [Hw|(Hi & v' & Hv')].
        -- left. case_decide; [congruence|done].
        -- destruct (decide (i = index)) as [->|Hne].
           ++ rewrite Z.sub_diag in Hv'. simpl in Hv'. simplify_eq.
              left. by rewrite decide_True.
           ++ right. split; [lia|]. exists v'.
              replace (Z.to_nat (i - index)) with (S (Z.to_nat (i - (index + 1))))
                in Hv' by lia.
              done.
Qed.

Lemma assign_indices_size (items : list (string * Z)) (index K : Z) (d : gmap string Z) :
  NoDup items.*1 →
  (∀ k, k ∈ items.*1 → d !! k = None) →
  size (assign_indices items index K d)
  = (size d + length items `min` Z.to_nat (K - index))%nat.
Proof.
  revert index d. induction items as [|[k v] items IH]; intros index d Hnd Hfresh;
    cbn [assign_indices].
  - simpl. lia.
  - destruct (K <=? index) eqn:Hcut; [cbn [length]; lia|].
    rewrite fmap_cons in Hnd. apply NoDup_cons in Hnd as [Hk Hnd].
    assert (d !! k = None) as Hdk by (apply Hfresh, list_elem_of_here).
    cbn [fst] in Hk |- *.
    rewrite IH; [|done|].
    2:{ intros k' Hk'. rewrite lookup_insert_ne by congruence.
        apply Hfresh. rewrite fmap_cons. by apply list_elem_of_further. }
    rewrite map_size_insert_None by done. cbn [length]. lia.
Qed.

(** The list from which the indices are given out under a cutoff: one entry
    for each distinct token with the number of its occurrences, by
    decreasing number; the dictionary maps the token at position [i] to [i],
    for the positions below the cutoff. *)
Lemma cutoff_ranking (f : SentencePair → list string) sps (K : Z) :
  let tokens := concat (f <$> sps) in
  let d := assign_indices
             (most_common (foldl (λ c sp, counter_iadd c (Counter_of (f sp))) [] sps))
             0 K ∅ in
  let items := most_common (foldl (λ c sp, counter_iadd c (Counter_of (f sp))) [] sps) in
  NoDup items.*1 ∧
  StronglySorted (λ x y : string * Z, y.2 ≤ x.2) items ∧
  (∀ w v, (w, v) ∈ items ↔ w ∈ tokens ∧ v = occurrences w tokens) ∧
  (∀ w i, d !! w = Some i ↔ 0 ≤ i < K ∧ ∃ v, items !! Z.to_nat i = Some (w, v)) ∧
  size d = (length items `min` Z.to_nat K)%nat ∧
  length items = length (remove_dups tokens).
Proof.
  intros tokens d items.
  destruct (count_loop_keys f sps [] (NoDup_nil_2 : NoDup ([] : Counter).*1))
    as [Hnd Hkeys].
  destruct (count_loop_counts f sps [] ltac:(constructor)) as [Hpos Hget].
  set (c := foldl (λ c sp, counter_iadd c (Counter_of (f sp))) [] sps) in *.
  fold tokens in Hkeys, Hget.
  assert ((most_common c).*1 ≡ₚ c.*1) as Hperm by (by rewrite most_common_perm).
  assert (∀ w v, (w, v) ∈ c ↔ w ∈ tokens ∧ v = occurrences w tokens) as Hentries.
  { intros w v. split.
    - intros Hin. pose proof (counter_get_entry c w v Hnd Hin) as Hv.
      rewrite Hget in Hv. unfold counter_get in Hv. simpl in Hv.
      assert (0 < v) as Hv0.
      { unfold positive_counts in Hpos. rewrite Forall_forall in Hpos.
        apply (Hpos (w, v) Hin). }
      split; [apply occurrences_pos; lia|lia].
    - intros [Hw ->]. apply occurrences_pos in Hw.
      destruct (counter_get_key c w) as [v Hv].
      { rewrite Hget. unfold counter_get. simpl. lia. }
      pose proof (counter_get_entry c w v Hnd Hv) as Hv'.
      rewrite Hget in Hv'. unfold counter_get in Hv'. simpl in Hv'.
      by replace (occurrences w tokens) with v by lia. }
  unfold items. fold c.
  split; [by rewrite Hperm|]. split; [apply most_common_strongly_sorted|].
  split; [by intros w v; rewrite most_common_perm|]. split; [|split].
  - intros w i. unfold d. rewrite assign_indices_lookup.
    + rewrite lookup_empty, Z.sub_0_r. split; [intros [?|?]; done|by right].
    + by rewrite Hperm.
    + intros k _. apply lookup_empty.
  - unfold d. rewrite assign_indices_size.
    + rewrite map_size_empty, Z.sub_0_r. lia.
    + by rewrite Hperm.
    + intros k _. apply lookup_empty.
  - rewrite <- (length_fmap fst), Hperm. apply Permutation_length, NoDup_Permutation.
    + done.
    + apply NoDup_remove_dups.
    + intros w. rewrite elem_of_remove_dups, list_elem_of_fmap. split.
      * intros ([w' v] & -> & Hin). by apply Hentries in Hin as [? _].
      * intros Hw. exists (w, occurrences w tokens). split; [done|]. by apply Hentries.
Qed.

Lemma cutoff_side_order (f : SentencePair → list string) sps (K : Z) w w' i :
  let tokens := concat (f <$> sps) in
  let d := assign_indices
             (most_common (foldl (λ c sp, counter_iadd c (Counter_of (f sp))) [] sps))
             0 K ∅ in
  d !! w = Some i → w' ∈ tokens →
  (d !! w' = None ∨ ∃ j, d !! w' = Some j ∧ i < j) →
  occurrences w' tokens ≤ occurrences w tokens.
Proof.
  intros tokens d Hw Hw' Hlater.
  destruct (cutoff_ranking f sps K) as (Hnd & Hsorted & Hentries & Hdict & _).
  fold tokens in Hentries. fold d in Hdict.
  set (items := most_common _) in *.
  apply Hdict in Hw as (Hi & v & Hv).
  assert (v = occurrences w tokens) as ->.
  { by apply (Hentries w v), list_elem_of_lookup_2 with (Z.to_nat i). }
  assert (∃ n, items !! n = Some (w', occurrences w' tokens) ∧ (Z.to_nat i < n)%nat)
    as (n & Hn & Hin).
  { destruct Hlater as [Hnone|(j & Hj & Hij)].
    - assert ((w', occurrences w' tokens) ∈ items) as [n Hn]%list_elem_of_lookup
        by by apply Hentries.
      exists n. split; [done|].
      destruct (decide (Z.of_nat n < K)) as [Hlt|Hge]; [|lia].
      assert (d !! w' = Some (Z.of_nat n)) as Hsome; [|congruence].
      apply Hdict. split; [lia|]. exists (occurrences w' tokens).
      by rewrite Nat2Z.id.
    - apply Hdict in Hj as (Hj & v' & Hv').
      assert (v' = occurrences w' tokens) as ->.
      { by apply (Hentries w' v'), list_elem_of_lookup_2 with (Z.to_nat j). }
      exists (Z.to_nat j). split; [done|lia]. }
  apply (StronglySorted_lookup _ _ _ _ _ _ Hsorted Hv Hn Hin).
Qed.

(** X15: under a cutoff the tokens are ranked by frequency: a token with an index
    occurs on its side of the corpus at least as often as every token that
    has a larger index or none. *)
Theorem get_token_to_index_most_frequent sentence_pairs (K : Z) w w' i :
  let source_dict := (get_token_to_index sentence_pairs (Some K)).1 in
  let target_dict := (get_token_to_index sentence_pairs (Some K)).2 in
  (source_dict !! w = Some i → w' ∈ source_scan sentence_pairs →
   (source_dict !! w' = None ∨ ∃ j, source_dict !! w' = Some j ∧ i < j) →
   occurrences w' (source_scan sentence_pairs)
   ≤ occurrences w (source_scan sentence_pairs)) ∧
  (target_dict !! w = Some i → w' ∈ target_scan sentence_pairs →
   (target_dict !! w' = None ∨ ∃ j, target_dict !! w' = Some j ∧ i < j) →
   occurrences w' (target_scan sentence_pairs)
   ≤ occurrences w (target_scan sentence_pairs)).
Proof.
  unfold get_token_to_index. rewrite count_loops_split. cbn zeta. cbn [fst snd].
  split.
  - apply (cutoff_side_order source).
  - apply (cutoff_side_order target).
Qed.

Lemma get_token_to_index_most_frequent_witness :
  occurrences "c" (source_scan small_corpus) ≤ occurrences "b" (source_scan small_corpus).
Proof.
  apply (get_token_to_index_most_frequent small_corpus 2 "b" "c" 0).
  - vm_compute. reflexivity.
  - vm_compute. set_solver.
  - left. vm_compute. reflexivity.
Defined.

Lemma cutoff_side_size (f : SentencePair → list string) sps (K : Z) :
  let tokens := concat (f <$> sps) in
  let d := assign_indices
             (most_common (foldl (λ c sp, counter_iadd c (Counter_of (f sp))) [] sps))
             0 K ∅ in
  Z.of_nat (size d) = Z.min (Z.max 0 K) (Z.of_nat (length (remove_dups tokens))) ∧
  (Z.of_nat (length (remove_dups tokens)) ≤ K → ∀ w, w ∈ tokens → is_Some (d !! w)).
Proof.
  intros tokens d.
  destruct (cutoff_ranking f sps K)
    as (Hnd & Hsorted & Hentries & Hdict & Hsize & Hlen).
  fold tokens in Hentries, Hlen. fold d in Hdict, Hsize.
  set (items := most_common _) in *.
  split; [lia|]. intros HK w Hw.
  assert ((w, occurrences w tokens) ∈ items) as [n Hn]%list_elem_of_lookup
    by by apply Hentries.
  exists (Z.of_nat n). apply Hdict.
  pose proof (lookup_lt_Some _ _ _ Hn). split; [lia|].
  exists (occurrences w tokens). by rewrite Nat2Z.id.
Qed.

(** X16: under the cutoff [K] each dictionary has as many entries as its side has
    distinct tokens, but no more than [K] and none for a negative [K]; a
    cutoff that is at least the number of distinct tokens leaves no token
    out. *)
Theorem get_token_to_index_cutoff_size sentence_pairs (K : Z) :
  let source_dict := (get_token_to_index sentence_pairs (Some K)).1 in
  let target_dict := (get_token_to_index sentence_pairs (Some K)).2 in
  Z.of_nat (size source_dict)
  = Z.min (Z.max 0 K) (Z.of_nat (length (remove_dups (source_scan sentence_pairs)))) ∧
  Z.of_nat (size target_dict)
  = Z.min (Z.max 0 K) (Z.of_nat (length (remove_dups (target_scan sentence_pairs)))) ∧
  (Z.of_nat (length (remove_dups (source_scan sentence_pairs))) ≤ K →
   ∀ w, w ∈ source_scan sentence_pairs → is_Some (source_dict !! w)) ∧
  (Z.of_nat (length (remove_dups (target_scan sentence_pairs))) ≤ K →
   ∀ w, w ∈ target_scan sentence_pairs → is_Some (target_dict !! w)).
Proof.
  unfold get_token_to_index. rewrite count_loops_split. cbn zeta. cbn [fst snd].
  destruct (cutoff_side_size source sentence_pairs K) as [Hs1 Hs2].
  destruct (cutoff_side_size target sentence_pairs K) as [Ht1 Ht2].
  done.
Qed.

Lemma get_token_to_index_cutoff_size_witness :
  is_Some ((get_token_to_index small_corpus (Some 3)).1 !! "c"%string).
Proof.
  apply (get_token_to_index_cutoff_size small_corpus 3).
  - vm_compute. discriminate.
  - vm_compute. set_solver.
Defined.

(** ** The order of the counters and of the ranking *)

Section order.
Implicit Types (c other : Counter) (w elem : string) (l acc : list string).

Lemma first_seen_step_in acc w : w ∈ acc → first_seen_step acc w = acc.
Proof. intros Hw. unfold first_seen_step. by rewrite decide_True. Qed.

Lemma first_seen_step_out acc w : w ∉ acc → first_seen_step acc w = acc ++ [w].
Proof. intros Hw. unfold first_seen_step. by rewrite decide_False. Qed.

Lemma first_seen_elem l acc w :
  w ∈ foldl first_seen_step acc l ↔ w ∈ acc ∨ w ∈ l.
Proof.
  revert acc. induction l as [|w' l IH]; intros acc; cbn [foldl].
  - rewrite elem_of_nil. tauto.
  - rewrite IH, elem_of_cons. unfold first_seen_step. case_decide.
    + split; [tauto|]. intros [?|[->|?]]; auto.
    + rewrite elem_of_app, list_elem_of_singleton. tauto.
Qed.

Lemma first_seen_prefix l acc :
  ∃ ext, foldl first_seen_step acc l = acc ++ ext.
Proof.
  revert acc. induction l as [|w l IH]; intros acc; cbn [foldl].
  - exists []. by rewrite app_nil_r.
  - destruct (IH (first_seen_step acc w)) as [ext ->].
    unfold first_seen_step. case_decide; [by exists ext|].
    exists (w :: ext). by rewrite <- app_assoc.
Qed.

Lemma first_seen_twice l acc acc0 :
  foldl first_seen_step acc (foldl first_seen_step acc0 l)
  = foldl first_seen_step (foldl first_seen_step acc acc0) l.
Proof.
  revert acc0. induction l as [|w l IH]; intros acc0; cbn [foldl]; [done|].
  rewrite IH. f_equal.
  destruct (decide (w ∈ acc0)) as [Hin|Hout].
  - rewrite (first_seen_step_in acc0), first_seen_step_in; [done| |done].
    apply first_seen_elem. by right.
  - rewrite (first_seen_step_out acc0), foldl_app by done. done.
Qed.

Lemma counter_add_first_seen c elem n :
  (counter_add c elem n).*1 = first_seen_step c.*1 elem.
Proof. apply counter_add_keys. Qed.

Lemma Counter_of_first_seen l : (Counter_of l).*1 = first_seen l.
Proof.
  unfold Counter_of, first_seen.
  assert (∀ c, (foldl (λ c elem, counter_add c elem 1) c l).*1
               = foldl first_seen_step c.*1 l) as Hgen.
  { induction l as [|w l IH]; intros c; cbn [foldl]; [done|].
    by rewrite IH, counter_add_first_seen. }
  apply (Hgen []).
Qed.

Lemma counter_adds_first_seen c other :
  (foldl (λ c kv, counter_add c kv.1 kv.2) c other).*1
  = foldl first_seen_step c.*1 other.*1.
Proof.
  revert c. induction other as [|[k v] other IH]; intros c; cbn [foldl]; [done|].
  by rewrite IH, counter_add_first_seen.
Qed.

(** The keys of the counters come in the order in which the tokens are
    first met. *)
Lemma count_loop_first_seen (f : SentencePair → list string) sps c :
  positive_counts c →
  (foldl (λ c sp, counter_iadd c (Counter_of (f sp))) c sps).*1
  = foldl first_seen_step c.*1 (concat (f <$> sps)).
Proof.
  revert c. induction sps as [|sp sps IH]; intros c Hc; cbn [foldl]; [done|].
  destruct (counter_iadd_positive c (Counter_of (f sp)) Hc (Counter_of_positive _))
    as [Heq Hpos].
  rewrite IH by done. rewrite Heq, counter_adds_first_seen, Counter_of_first_seen.
  rewrite fmap_cons. simpl. rewrite foldl_app. f_equal.
  unfold first_seen. rewrite first_seen_twice. done.
Qed.

Lemma first_seen_order pre w post w' :
  w' ∉ pre → w ≠ w' → w' ∈ post →
  [w; w'] `sublist_of` first_seen (pre ++ w :: post).
Proof.
  intros Hpre Hne Hpost. unfold first_seen. rewrite foldl_app. cbn [foldl].
  set (acc := first_seen_step (foldl first_seen_step [] pre) w).
  assert (w ∈ acc) as Hw.
  { unfold acc, first_seen_step. case_decide; [done|].
    apply elem_of_app. right. apply list_elem_of_here. }
  assert (w' ∉ acc) as Hw'.
  { unfold acc, first_seen_step. case_decide.
    - rewrite first_seen_elem, elem_of_nil. tauto.
    - rewrite elem_of_app, first_seen_elem, elem_of_nil, list_elem_of_singleton.
      intros [[?|?]|?]; done. }
  destruct (first_seen_prefix post acc) as [ext Hext].
  assert (w' ∈ ext) as Hin.
  { assert (w' ∈ foldl first_seen_step acc post) as Hall
      by (apply first_seen_elem; by right).
    rewrite Hext, elem_of_app in Hall. by destruct Hall. }
  rewrite Hext. apply (sublist_app [w] acc [w'] ext); by apply singleton_sublist_l.
Qed.

Lemma sublist_fmap_inv {A B} (f : A → B) (l : list B) (k : list A) :
  l `sublist_of` f <$> k → ∃ k', l = f <$> k' ∧ k' `sublist_of` k.
Proof.
  revert l. induction k as [|x k IH]; intros l Hl.
  - inv Hl. by exists [].
  - rewrite fmap_cons in Hl. apply sublist_cons_r in Hl as [Hl|(l' & -> & Hl)].
    + destruct (IH l Hl) as (k' & -> & Hk'). exists k'. split; [done|by constructor].
    + destruct (IH l' Hl) as (k' & -> & Hk'). exists (x :: k'). split; [done|by constructor].
Qed.

Lemma insert_by_count_sublist x (l : list (string * Z)) :
  l `sublist_of` insert_by_count x l.
Proof.
  induction l as [|y l IH]; simpl; [apply sublist_nil_l|].
  destruct (x.2 <? y.2); [by apply sublist_skip|by apply sublist_cons].
Qed.

Lemma insert_by_count_before x y (l : list (string * Z)) :
  y ∈ l → y.2 ≤ x.2 → [x; y] `sublist_of` insert_by_count x l.
Proof.
  intros Hy Hle. induction l as [|z l IH]; [by apply elem_of_nil in Hy|].
  simpl. destruct (x.2 <? z.2) eqn:Hlt.
  - apply elem_of_cons in Hy as [->|Hy]; [lia|]. constructor. by apply IH.
  - apply sublist_skip. by apply singleton_sublist_l.
Qed.

(** The sort is stable: an entry that comes before another one and has at
    least its count still comes before it in the ranking. *)
Lemma most_common_stable c (x y : string * Z) :
  [x; y] `sublist_of` c → y.2 ≤ x.2 → [x; y] `sublist_of` most_common c.
Proof.
  intros Hxy Hle. unfold most_common.
  induction c as [|z c IH]; [by inv Hxy|]. simpl.
  apply sublist_cons_r in Hxy as [Hxy|(l' & [= <- <-] & Hy)].
  - etrans; [by apply IH|]. apply insert_by_count_sublist.
  - apply insert_by_count_before; [|done].
    apply singleton_sublist_l in Hy. by rewrite (most_common_perm c).
Qed.

Lemma sublist_positions {A} (l : list A) (x y : A) (i j : nat) :
  NoDup l → [x; y] `sublist_of` l → l !! i = Some x → l !! j = Some y → (i < j)%nat.
Proof.
  intros Hnd (k1 & k2 & -> & Hy%singleton_sublist_l)%sublist_cons_l Hi Hj.
  apply list_elem_of_lookup in Hy as [n Hn].
  assert (i = length k1) as ->.
  { eapply NoDup_lookup; [done..|]. by rewrite list_lookup_middle. }
  assert (j = (length k1 + S n)%nat) as ->; [|lia].
  eapply NoDup_lookup; [done..|].
  rewrite lookup_app_r by lia.
  replace (length k1 + S n - length k1)%nat with (S n) by lia. done.
Qed.
End order.

Lemma cutoff_side_ties (f : SentencePair → list string) sps (K : Z) pre w post w' j :
  let tokens := concat (f <$> sps) in
  let d := assign_indices
             (most_common (foldl (λ c sp, counter_iadd c (Counter_of (f sp))) [] sps))
             0 K ∅ in
  tokens = pre ++ w :: post → w' ∉ pre → w ≠ w' →
  occurrences w' tokens ≤ occurrences w tokens →
  d !! w' = Some j → ∃ i, d !! w = Some i ∧ i < j.
Proof.
  intros tokens d Htokens Hpre Hne Hocc Hj.
  destruct (cutoff_ranking f sps K) as (Hnd & _ & Hentries & Hdict & _).
  pose proof (count_loop_first_seen f sps [] ltac:(constructor)) as Hkeys.
  fold tokens in Hentries, Hkeys. fold d in Hdict.
  set (c := foldl (λ c sp, counter_iadd c (Counter_of (f sp))) [] sps) in *.
  set (items := most_common c) in *.
  apply Hdict in Hj as (Hj & v' & Hv').
  assert (w' ∈ post) as Hpost.
  { assert (w' ∈ tokens) as Hin
      by (eapply (Hentries w' v'), list_elem_of_lookup_2; exact Hv').
    rewrite Htokens, elem_of_app, elem_of_cons in Hin.
    destruct Hin as [?|[?|?]]; [done|congruence|done]. }
  assert ([w; w'] `sublist_of` c.*1) as Hsub.
  { rewrite Hkeys. simpl. fold (first_seen tokens). rewrite Htokens.
    by apply first_seen_order. }
  apply sublist_fmap_inv in Hsub as (k' & Hk' & Hsub).
  destruct k' as [|[w1 v1] [|[w2 v2] [|? ?]]]; try done.
  simpl in Hk'. injection Hk' as <- <-.
  assert ((w, v1) ∈ items ∧ (w', v2) ∈ items) as [Hin1 Hin2].
  { unfold items. rewrite !(most_common_perm c).
    split; eapply elem_of_sublist; try exact Hsub.
    - apply list_elem_of_here.
    - apply list_elem_of_further, list_elem_of_here. }
  pose proof (proj1 (Hentries _ _) Hin1) as [_ ->].
  pose proof (proj1 (Hentries _ _) Hin2) as [_ ->].
  apply most_common_stable in Hsub; [|done]. fold items in Hsub.
  assert (v' = occurrences w' tokens) as ->.
  { by apply (Hentries w' v'), list_elem_of_lookup_2 with (Z.to_nat j). }
  apply list_elem_of_lookup in Hin1 as [n Hn].
  pose proof (sublist_positions items _ _ n (Z.to_nat j)
                (NoDup_fmap_1 fst items Hnd) Hsub Hn Hv') as Hlt.
  exists (Z.of_nat n). split; [|lia].
  apply Hdict. split; [lia|]. exists (occurrences w tokens). by rewrite Nat2Z.id.
Qed.

(** X17: ties are broken by the order of the corpus: under a cutoff, a token that
    is met before another one on its side and occurs at least as often has
    the smaller index, and has an index whenever the other one has. *)
Theorem get_token_to_index_ties sentence_pairs (K : Z) pre w post w' j :
  let source_dict := (get_token_to_index sentence_pairs (Some K)).1 in
  let target_dict := (get_token_to_index sentence_pairs (Some K)).2 in
  w' ∉ pre → w ≠ w' →
  (source_scan sentence_pairs = pre ++ w :: post →
   occurrences w' (source_scan sentence_pairs)
   ≤ occurrences w (source_scan sentence_pairs) →
   source_dict !! w' = Some j → ∃ i, source_dict !! w = Some i ∧ i < j) ∧
  (target_scan sentence_pairs = pre ++ w :: post →
   occurrences w' (target_scan sentence_pairs)
   ≤ occurrences w (target_scan sentence_pairs) →
   target_dict !! w' = Some j → ∃ i, target_dict !! w = Some i ∧ i < j).
Proof.
  unfold get_token_to_index. rewrite count_loops_split. cbn zeta. cbn [fst snd].
  intros Hpre Hne. split; intros Hscan Hocc Hj.
  - by apply (cutoff_side_ties source sentence_pairs K pre w post w' j).
  - by apply (cutoff_side_ties target sentence_pairs K pre w post w' j).
Qed.

Lemma get_token_to_index_ties_witness :
  ∃ i, (get_token_to_index
          [mkSentencePair ["u"; "v"; "v"; "u"] []]%string (Some 2)).1 !! "u"%string = Some i ∧
       i < 1.
Proof.
  apply (get_token_to_index_ties [mkSentencePair ["u"; "v"; "v"; "u"] []]%string 2
           [] "u" ["v"; "v"; "u"]%string "v" 1).
  - apply not_elem_of_nil.
  - discriminate.
  - reflexivity.
  - vm_compute. discriminate.
  - vm_compute. reflexivity.
Defined.

(** * Further properties of the parser *)

Lemma str_split_cons sep c s :
  str_split sep (String c s)
  = if Ascii.eqb c sep then EmptyString :: str_split sep s
    else match str_split sep s with
         | [] => [String c EmptyString]
         | w :: ws => String c w :: ws
         end.
Proof. reflexivity. Qed.

Lemma str_split_nonempty sep s : str_split sep s ≠ [].
Proof.
  induction s as [|c s IH]; [done|]. rewrite str_split_cons.
  destruct (Ascii.eqb c sep); [done|]. by destruct (str_split sep s).
Qed.

Lemma str_join_cons sep piece rest :
  rest ≠ [] → str_join sep (piece :: rest) = piece +:+ String sep (str_join sep rest).
Proof. by destruct rest. Qed.

(** Splitting and joining again gives the string back; no piece has the
    separator; there is one piece more than there are separators. *)
Lemma str_split_spec sep s :
  str_join sep (str_split sep s) = s ∧
  Forall (λ piece, count_char sep piece = O) (str_split sep s) ∧
  length (str_split sep s) = S (count_char sep s).
Proof.
  induction s as [|c s (Hjoin & Hnone & Hlen)]; [by repeat constructor|].
  rewrite str_split_cons. cbn [count_char].
  pose proof (str_split_nonempty sep s) as Hne.
  destruct (Ascii.eqb c sep) eqn:Hc.
  - apply Ascii.eqb_eq in Hc as ->. split; [|split].
    + rewrite str_join_cons by done. by rewrite Hjoin.
    + by constructor.
    + simpl. by rewrite Hlen.
  - destruct (str_split sep s) as [|w ws]; [done|]. split; [|split].
    + destruct ws as [|w' ws]; simpl in *; by rewrite <- Hjoin.
    + apply Forall_cons in Hnone as [Hw Hws]. constructor; [|done].
      simpl. by rewrite Hc.
    + simpl in *. lia.
Qed.

Lemma split_text_tokens (t : option string) : tokens_of_text t (split_text t).
Proof. destruct t as [t|]; [apply str_split_spec|done]. Qed.

(** The loop over the blocks, when it raises nothing: one sentence pair and
    one alignment for each block, in the order of the blocks. *)
Lemma extract_blocks_ok `{PI : PyInt} blocks sps las sps' las' :
  extract_blocks blocks (sps, las) = Ok (sps', las') →
  ∃ new_sps new_las,
    sps' = sps ++ new_sps ∧ las' = las ++ new_las ∧
    new_sps = (λ b, mkSentencePair (split_text (field_text b 0))
                                   (split_text (field_text b 1))) <$> blocks ∧
    Forall2 (λ b la,
               map_result parse_tuple (split_text (field_text b 2)) = Ok (sure la) ∧
               map_result parse_tuple (split_text (field_text b 3)) = Ok (possible la))
            blocks new_las.
Proof.
  revert sps las. induction blocks as [|block blocks IH]; intros sps las;
    cbn [extract_blocks].
  - intros [= <- <-]. exists [], []. rewrite !app_nil_r. by repeat constructor.
  - destruct (extract_block (sps, las) block) as [[sps1 las1]|e] eqn:Hblock; [|done].
    cbn [rbind]. intros Hrest.
    destruct (IH _ _ Hrest) as (new_sps & new_las & -> & -> & -> & Hlas).
    unfold extract_block, getitem, field_text in *.
    destruct block as [t cs]. cbn [children] in *.
    destruct cs as [|c0 [|c1 [|c2 [|c3 rest]]]]; try done. simpl in *.
    destruct (map_result parse_tuple (split_text (text c2))) as [sure_list|] eqn:Hs;
      [|done].
    destruct (map_result parse_tuple (split_text (text c3))) as [possible_list|] eqn:Hp;
      [|done].
    simpl in Hblock. injection Hblock as <- <-.
    eexists _, (_ :: new_las). rewrite <- !app_assoc. simpl.
    split; [done|]. split; [done|]. split; [done|]. by constructor.
Qed.

(** X18: when [extract_sentences] returns, it returns one sentence pair and one
    alignment for each block, in the order of the blocks: the tokens of the
    pair are those of the first two fields, and the tuples of the alignment
    are the parsed tokens of the third and the fourth field. *)
Theorem extract_sentences_blocks `{XP : XMLParser} `{PI : PyInt}
    all_text root sentence_pairs alignments :
  fromstring (escape_text all_text) = Ok root →
  extract_sentences all_text = Ok (sentence_pairs, alignments) →
  length sentence_pairs = length (children root) ∧
  length alignments = length (children root) ∧
  Forall2 (λ b sp, tokens_of_text (field_text b 0) (source sp) ∧
                   tokens_of_text (field_text b 1) (target sp))
          (children root) sentence_pairs ∧
  Forall2 (λ b la,
             map_result parse_tuple (split_text (field_text b 2)) = Ok (sure la) ∧
             map_result parse_tuple (split_text (field_text b 3)) = Ok (possible la))
          (children root) alignments.
Proof.
  intros Hroot. unfold extract_sentences. rewrite Hroot. cbn [rbind].
  intros (new_sps & new_las & -> & -> & -> & Hlas)%extract_blocks_ok. simpl.
  split; [by rewrite length_fmap|]. split; [symmetry; by eapply Forall2_length|].
  split; [|done]. apply Forall2_fmap_r, Forall_Forall2_diag, Forall_forall.
  intros b _. simpl. split; apply split_text_tokens.
Qed.

Lemma extract_sentences_blocks_witness :
  length [mkSentencePair ["a"; "b"] ["c"]]%string = length (children odd_pairs_root).
Proof.
  apply (extract_sentences_blocks (XP := sample_parser) (PI := ascii_only_int) odd_pairs_text odd_pairs_root
           [mkSentencePair ["a"; "b"] ["c"]]%string
           [mkLabeledAlignment [[7]] [[1; 2; 3]]]).
  - reflexivity.
  - vm_compute. reflexivity.
Defined.

Lemma extract_block_short `{PI : PyInt} st block :
  (length (children block) < 4)%nat → extract_block st block = Raise IndexError.
Proof.
  destruct st as [sps las]. unfold extract_block, getitem.
  destruct block as [t cs]. cbn [children].
  destruct cs as [|c0 [|c1 [|c2 [|c3 rest]]]]; simpl; try done. lia.
Qed.

Lemma extract_block_long `{PI : PyInt} st block e :
  (4 ≤ length (children block))%nat → extract_block st block = Raise e → e = ValueError.
Proof.
  destruct st as [sps las]. unfold extract_block, getitem.
  destruct block as [t cs]. cbn [children].
  destruct cs as [|c0 [|c1 [|c2 [|c3 rest]]]]; simpl; try lia. intros _.
  intros [Hsure|(sure_list & _ & [Hposs|(possible_list & _ & ?)]%raise_bind)]%raise_bind;
    [..|done]; by eapply parse_tuples_raise.
Qed.

Lemma extract_blocks_first_malformed `{PI : PyInt} good bad rest st :
  Forall (λ b, ¬ malformed_block b) good → malformed_block bad →
  extract_blocks (good ++ bad :: rest) st
  = Raise (if decide (length (children bad) < 4)%nat then IndexError else ValueError).
Proof.
  intros Hgood Hbad. revert st.
  induction Hgood as [|b good Hb _ IH]; intros st; cbn [app extract_blocks].
  - case_decide as Hlen.
    + by rewrite extract_block_short.
    + apply extract_block_raises with (st := st) in Hbad.
      destruct (extract_block st bad) as [?|e] eqn:Hblock; [done|].
      apply extract_block_long in Hblock as ->; [done|lia].
  - destruct (extract_block st b) as [st'|e] eqn:Hblock.
    + apply IH.
    + destruct Hb. apply (extract_block_raises st). by rewrite Hblock.
Qed.

(** X19: what [extract_sentences] raises is decided by the first malformed
    block: [IndexError] if it has fewer than four fields, [ValueError] if it
    has four fields and an alignment token with a piece on which [int]
    raises. *)
Theorem extract_sentences_first_error `{XP : XMLParser} `{PI : PyInt}
    all_text root good bad rest :
  fromstring (escape_text all_text) = Ok root →
  children root = good ++ bad :: rest →
  Forall (λ b, ¬ malformed_block b) good → malformed_block bad →
  extract_sentences all_text
  = Raise (if decide (length (children bad) < 4)%nat then IndexError else ValueError).
Proof.
  intros Hroot Hblocks Hgood Hbad. unfold extract_sentences.
  rewrite Hroot. cbn [rbind]. rewrite Hblocks.
  by apply extract_blocks_first_malformed.
Qed.

Lemma extract_sentences_first_error_witness :
  extract_sentences (XP := sample_parser) (PI := ascii_only_int) bad_position_text
  = Raise ValueError.
Proof.
  etrans.
  - apply (extract_sentences_first_error (XP := sample_parser)
             (PI := ascii_only_int) bad_position_text bad_position_root (take 1 (children bad_position_root))
             (mkElement None (leaf <$> [Some "b"; Some "d"; Some "1-x"; None]%string)) []).
    + reflexivity.
    + reflexivity.
    + apply (bool_decide_unpack _). vm_compute. exact I.
    + apply (bool_decide_unpack _). vm_compute. exact I.
  - reflexivity.
Defined.

Lemma extract_block_fields `{PI : PyInt} st block block' :
  take 4 (text <$> children block) = take 4 (text <$> children block') →
  extract_block st block = extract_block st block'.
Proof.
  destruct st as [sps las]. unfold extract_block, getitem.
  destruct block as [t cs], block' as [t' cs']. cbn [children].
  destruct cs as [|c0 [|c1 [|c2 [|c3 rest]]]],
           cs' as [|c0' [|c1' [|c2' [|c3' rest']]]]; simpl; try done.
  intros [= H0 H1 H2 H3]. by rewrite H0, H1, H2, H3.
Qed.

(** X20: [extract_sentences] looks at nothing but the texts of the first four
    fields of each block: markup that differs elsewhere (further fields,
    texts of the blocks, elements inside the fields) gives the same
    result. *)
Theorem extract_sentences_fields `{XP : XMLParser} `{PI : PyInt}
    all_text all_text' root root' :
  fromstring (escape_text all_text) = Ok root →
  fromstring (escape_text all_text') = Ok root' →
  Forall2 (λ b b', take 4 (text <$> children b) = take 4 (text <$> children b'))
          (children root) (children root') →
  extract_sentences all_text = extract_sentences all_text'.
Proof.
  intros Hroot Hroot' Hsame. unfold extract_sentences.
  rewrite Hroot, Hroot'. cbn [rbind].
  generalize (([], []) : list SentencePair * list LabeledAlignment).
  induction Hsame as [|b b' bs bs' Hb _ IH]; intros st; cbn [extract_blocks]; [done|].
  rewrite (extract_block_fields st b b' Hb).
  destruct (extract_block st b'); simpl; [apply IH|done].
Qed.

Lemma extract_sentences_fields_witness :
  let XP := table_parser
              [(odd_pairs_text, odd_pairs_root);
               ("<longer/>"%string,
                corpus_of [[Some "a b"; Some "c"; Some "7"; Some "1-2-3";
                            Some "a fifth field"]]%string)] in
  extract_sentences (PI := ascii_only_int) odd_pairs_text
  = extract_sentences (PI := ascii_only_int) "<longer/>".
Proof.
  intros XP.
  apply (extract_sentences_fields (XP := XP) (PI := ascii_only_int)
           odd_pairs_text "<longer/>" odd_pairs_root
           (corpus_of [[Some "a b"; Some "c"; Some "7"; Some "1-2-3";
                        Some "a fifth field"]]%string)).
  - reflexivity.
  - reflexivity.
  - repeat constructor.
Defined.

(** X21: the escaping loses nothing: two texts with the same escaped text are the
    same text. *)
Theorem escape_text_injective (s1 s2 : string) :
  escape_text s1 = escape_text s2 → s1 = s2.
Proof.
  unfold escape_text. revert s2.
  induction s1 as [|c1 s1 IH]; intros [|c2 s2]; cbn [str_replace].
  - done.
  - destruct (Ascii.eqb c2 "&"); discriminate.
  - destruct (Ascii.eqb c1 "&"); discriminate.
  - destruct (Ascii.eqb c1 "&") eqn:H1, (Ascii.eqb c2 "&") eqn:H2.
    + apply Ascii.eqb_eq in H1 as ->. apply Ascii.eqb_eq in H2 as ->.
      intros [= Heq]. f_equal. by apply IH.
    + apply Ascii.eqb_eq in H1 as ->. intros [= <-]. by rewrite Ascii.eqb_refl in H2.
    + apply Ascii.eqb_eq in H2 as ->. intros [= ->]. by rewrite Ascii.eqb_refl in H1.
    + intros [= -> Heq]. f_equal. by apply IH.
Qed.

Lemma escape_text_injective_witness : "a & b"%string = "a & b"%string.
Proof. apply (escape_text_injective "a & b" "a & b"). reflexivity. Defined.

(** X22: the escaped text has no ampersand of its own: whatever comes before an
    ampersand of the escaped text, what comes after it starts with the rest
    of the escape. *)
Theorem escape_text_no_bare_ampersand (s pre post : string) :
  escape_text s = pre +:+ String "&" post → ∃ post', post = "amp;" +:+ post'.
Proof.
  unfold escape_text. revert pre.
  induction s as [|c s IH]; intros pre; cbn [str_replace].
  - by destruct pre.
  - destruct (Ascii.eqb c "&") eqn:Hc.
    + destruct pre as [|c0 pre]; [intros [= <-]; by eexists|].
      rewrite append_cons. intros [= <- Heq].
      destruct pre as [|c1 pre]; [discriminate|]. rewrite append_cons in Heq.
      injection Heq as <- Heq.
      destruct pre as [|c2 pre]; [discriminate|]. rewrite append_cons in Heq.
      injection Heq as <- Heq.
      destruct pre as [|c3 pre]; [discriminate|]. rewrite append_cons in Heq.
      injection Heq as <- Heq.
      destruct pre as [|c4 pre]; [discriminate|]. rewrite append_cons in Heq.
      injection Heq as <- Heq.
      by apply (IH pre).
    + destruct pre as [|c0 pre].
      * intros [= -> _]. by rewrite Ascii.eqb_refl in Hc.
      * rewrite append_cons. intros [= <- Heq]. by apply (IH pre).
Qed.

Lemma escape_text_no_bare_ampersand_witness :
  ∃ post', "amp;amp; b"%string = "amp;" +:+ post'.
Proof.
  apply (escape_text_no_bare_ampersand "a &amp; b" "a " "amp;amp; b"). reflexivity.
Defined.

(** * The order of the sentences *)

Lemma sumZ_perm (l k : list Z) : l ≡ₚ k → sumZ l = sumZ k.
Proof. induction 1; simpl in *; lia. Qed.

Lemma sum_zip_with_perm {A B} (f : A → B → Z) (l l' : list A) (k k' : list B) :
  zip l' k' ≡ₚ zip l k → sumZ (zip_with f l k) = sumZ (zip_with f l' k').
Proof.
  intros Hperm. rewrite (zip_with_zip f l k), (zip_with_zip f l' k').
  apply sumZ_perm. by rewrite Hperm.
Qed.

(** X7: the metrics do not depend on the order of the sentences: the same pairs
    of a gold and a predicted sentence in another order give the same
    precision, recall and error rate. *)
Theorem metrics_sentence_order `{FR : FloatRounding}
    reference reference' predicted predicted' :
  zip reference' predicted' ≡ₚ zip reference predicted →
  compute_precision reference predicted = compute_precision reference' predicted' ∧
  compute_recall reference predicted = compute_recall reference' predicted' ∧
  compute_aer reference predicted = compute_aer reference' predicted'.
Proof.
  intros Hperm.
  assert (compute_precision reference predicted
          = compute_precision reference' predicted') as Hp.
  { rewrite !compute_precision_sums. f_equal; by apply sum_zip_with_perm. }
  assert (compute_recall reference predicted
          = compute_recall reference' predicted') as Hr.
  { rewrite !compute_recall_sums. f_equal; by apply sum_zip_with_perm. }
  split; [done|]. split; [done|]. by rewrite !compute_aer_unfold, Hp, Hr.
Qed.

Lemma metrics_sentence_order_witness :
  compute_aer (FR := binary64_rounding)
    (example_gold ++ skewed_gold) (example_predicted ++ skewed_predicted)
  = compute_aer (FR := binary64_rounding)
      (skewed_gold ++ example_gold) (skewed_predicted ++ example_predicted).
Proof.
  apply (metrics_sentence_order (FR := binary64_rounding)
           (example_gold ++ skewed_gold) (skewed_gold ++ example_gold)
           (example_predicted ++ skewed_predicted)
           (skewed_predicted ++ example_predicted)).
  apply Permutation_swap.
Defined.

(** * Well-formed alignment tokens *)

Lemma str_split_absent sep s : count_char sep s = O → str_split sep s = [s].
Proof.
  induction s as [|c s IH]; [done|]. rewrite str_split_cons. cbn [count_char].
  destruct (Ascii.eqb c sep); [done|]. intros Hs. by rewrite IH.
Qed.

Lemma str_split_app sep (s1 s2 : string) :
  count_char sep s1 = O →
  str_split sep (s1 +:+ String sep s2) = s1 :: str_split sep s2.
Proof.
  induction s1 as [|c s1 IH].
  - intros _. change (EmptyString +:+ String sep s2) with (String sep s2).
    by rewrite str_split_cons, Ascii.eqb_refl.
  - rewrite append_cons, str_split_cons. cbn [count_char].
    destruct (Ascii.eqb c sep); [done|]. intros Hs. by rewrite IH.
Qed.

Lemma digit_of_bounds c d : digit_of c = Some d → 0 ≤ d ≤ 9 ∧ 48 ≤ code c ≤ 57.
Proof. unfold digit_of. case_match eqn:Hc; [|done]. intros [= <-]. lia. Qed.

Lemma digit_run_cons c s :
  digit_run (String c s) = true →
  is_Some (digit_of c) ∧ (s = EmptyString ∨ digit_run s = true).
Proof.
  cbn [digit_run]. destruct s as [|c' s].
  - intros ?%bool_decide_eq_true. by auto.
  - intros [?%bool_decide_eq_true ?]%andb_true_iff. by auto.
Qed.

Lemma digits_of_run s acc after_digit :
  0 ≤ acc → (s = EmptyString ∧ after_digit = true ∨ digit_run s = true) →
  ∃ n, digits s acc after_digit = Some n ∧ 0 ≤ n.
Proof.
  revert acc after_digit. induction s as [|c s IH]; intros acc after_digit Hacc Hs.
  - destruct Hs as [[_ ->]|?]; [by exists acc|done].
  - destruct Hs as [[? _]|Hrun]; [done|].
    apply digit_run_cons in Hrun as [[d Hd] Hs]. cbn [digits]. rewrite Hd.
    pose proof (digit_of_bounds c d Hd). apply IH; [lia|].
    destruct Hs as [->|?]; auto.
Qed.

Lemma digit_run_no_hyphen s : digit_run s = true → count_char "-" s = O.
Proof.
  induction s as [|c s IH]; [done|].
  intros [[d Hd] Hs]%digit_run_cons. cbn [count_char].
  destruct (Ascii.eqb c "-") eqn:Hc.
  - apply Ascii.eqb_eq in Hc as ->. by vm_compute in Hd.
  - destruct Hs as [->|Hs]; [done|]. by rewrite IH.
Qed.

Lemma rstrip_digit_run s : digit_run s = true → rstrip s = s.
Proof.
  induction s as [|c s IH]; [done|].
  intros [[d Hd] Hs]%digit_run_cons. cbn [rstrip].
  assert (is_space c = false) as Hc.
  { apply digit_of_bounds in Hd. unfold is_space. lia. }
  destruct Hs as [->|Hs]; [by rewrite Hc|].
  rewrite IH by done. by destruct s.
Qed.

Lemma int_ascii_digit_run s :
  digit_run s = true → ∃ n, int_ascii s = Ok n ∧ 0 ≤ n.
Proof.
  intros Hs. destruct s as [|c s]; [done|].
  pose proof (digit_run_cons c s Hs) as [[d Hd] _].
  pose proof (digit_of_bounds c d Hd) as [_ Hc].
  unfold int_ascii. cbn [lstrip].
  assert (is_space c = false) as -> by (unfold is_space; lia).
  rewrite rstrip_digit_run by done.
  destruct (digits_of_run (String c s) 0 false) as (n & Hn & Hn0); [lia|by right|].
  exists n. split; [|done].
  assert (c ≠ "+"%char ∧ c ≠ "-"%char) as [Hplus Hminus].
  { split; intros ->; destruct Hc as [Hc _]; vm_compute in Hc; by apply Hc. }
  clear Hs Hd Hc.
  destruct c as [[] [] [] [] [] [] [] []]; try done; by rewrite Hn.
Qed.

Lemma digit_run_ascii s : digit_run s = true → is_ascii s = true.
Proof.
  induction s as [|c s IH]; [done|].
  intros [[d Hd] Hs]%digit_run_cons. cbn [is_ascii].
  apply digit_of_bounds in Hd. apply andb_true_iff. split; [lia|].
  destruct Hs as [->|Hs]; [done|by apply IH].
Qed.

(** [int] on a run of digits that is short enough for every interpreter. *)
Lemma py_int_digit_run `{PI : PyInt} s :
  digit_run s = true →
  (String.length s ≤ str_digits_check_threshold)%nat →
  ∃ n, py_int s = Ok n ∧ 0 ≤ n.
Proof.
  intros Hs Hlen. rewrite py_int_ascii by auto using digit_run_ascii.
  by apply int_ascii_digit_run.
Qed.

(** X23: a token made of two runs of digits with a hyphen between them,
    neither run longer than the threshold below which no interpreter limits
    the digits, is read as a tuple of exactly two positions, neither of them
    negative. *)
Theorem parse_tuple_pair `{PI : PyInt} (a b : string) :
  digit_run a = true → digit_run b = true →
  (String.length a ≤ str_digits_check_threshold)%nat →
  (String.length b ≤ str_digits_check_threshold)%nat →
  ∃ i j, parse_tuple (a +:+ String "-" b) = Ok [i; j] ∧ 0 ≤ i ∧ 0 ≤ j.
Proof.
  intros Ha Hb Hla Hlb. unfold parse_tuple.
  rewrite str_split_app, str_split_absent by by apply digit_run_no_hyphen.
  destruct (py_int_digit_run a Ha Hla) as (i & Hi & Hi0).
  destruct (py_int_digit_run b Hb Hlb) as (j & Hj & Hj0).
  exists i, j. cbn [map_result]. by rewrite Hi, Hj.
Qed.

Lemma parse_tuple_pair_witness :
  ∃ i j, parse_tuple (PI := ascii_only_int) "12-7" = Ok [i; j] ∧ 0 ≤ i ∧ 0 ≤ j.
Proof.
  apply (parse_tuple_pair (PI := ascii_only_int) "12" "7");
    [reflexivity|reflexivity|..]; unfold str_digits_check_threshold; simpl; lia.
Defined.
